(** * datatree/mapping.py: tree isomorphism and mapping over subtrees

    A shallow embedding of [check_isomorphic], [diff_treestructure],
    [map_over_subtree], [_check_single_set_return_values] and
    [_check_all_return_values], and the properties of the specification
    that hold (or fail) on them. *)

From Stdlib Require Import String Ascii DecimalString Arith Lia Bool List
  Permutation.
Import ListNotations.

Open Scope string_scope.
Open Scope list_scope.

Set Warnings "-register-all".

Local Infix "+++" := String.append (at level 60, right associativity).

(** Keys of a dictionary: a type with a decidable equality. *)
Class KeyEq (K : Type) : Type := {
  keqb : K -> K -> bool;
  keqb_spec : forall x y : K, reflect (x = y) (keqb x y)
}.

#[export] Instance KeyEq_string : KeyEq string :=
  {| keqb := String.eqb; keqb_spec := String.eqb_spec |}.

Fixpoint parts_eqb (p q : list string) : bool :=
  match p, q with
  | [], [] => true
  | x :: p', y :: q' => String.eqb x y && parts_eqb p' q'
  | _, _ => false
  end.

Lemma parts_eqb_spec (p q : list string) : reflect (p = q) (parts_eqb p q).
Proof.
  revert q; induction p as [|x p IH]; intros [|y q]; simpl;
    try (constructor; congruence).
  destruct (String.eqb_spec x y) as [->|Hxy]; simpl.
  - destruct (IH q) as [->|Hpq]; constructor; congruence.
  - constructor; congruence.
Qed.

#[export] Instance KeyEq_parts : KeyEq (list string) :=
  {| keqb := parts_eqb; keqb_spec := parts_eqb_spec |}.

(** ** Python values and exceptions *)

Section Model.

Context {Payload : Type}.

(** A value handed to or returned by the user function: [None], a payload
    ([Dataset] or [DataArray]), a tuple, or an object of any other class
    (kept by the text that [type(obj)] prints). *)
Inductive pyval : Type :=
| PNone
| PData (d : Payload)
| PTuple (items : list pyval)
| POther (cls : string).

Inductive exn : Type :=
| TypeError (msg : string)
| TreeIsomorphismError (msg : string)
| IndexError (msg : string)
| ValueError (msg : string).

Definition result (A : Type) : Type := (exn + A)%type.

Definition ret {A : Type} (x : A) : result A := inr x.
Definition raise {A : Type} (e : exn) : result A := inl e.
Definition bind {A B : Type} (m : result A) (k : A -> result B) : result B :=
  match m with
  | inl e => inl e
  | inr x => k x
  end.

(** ** The tree capability *)

(** Modelled from the spec: the tree node type (datatree/treenode.py and
    datatree/datatree.py are not part of the sources).  A node has a name,
    an ordered sequence of children and an optional payload. *)
Inductive tree : Type :=
| Node (name : string) (ds : option Payload) (children : list tree).

Definition t_name (t : tree) : string := let (n, _, _) := t in n.
Definition t_ds (t : tree) : option Payload := let (_, d, _) := t in d.
Definition t_children (t : tree) : list tree := let (_, _, c) := t in c.

(** Modelled from the spec: a path is the sequence of ancestor names from
    the root (excluded) down to the node, the parts of a [NodePath]; its
    text is the slash-joined sequence.  The dictionaries of the mapper
    hold a path by its parts.  The source holds the text: for names that
    are well formed ([named_well]) the text determines the parts
    ([path_str_injective]) and [NodePath] reads them back unchanged
    ([parts_of_text_path_str]); names that are empty, ["."] or hold a
    slash are outside what the parts stand for. *)
Definition NodePath : Type := list string.

Fixpoint join_parts (parts : list string) : string :=
  match parts with
  | [] => EmptyString
  | [p] => p
  | p :: rest => p +++ "/" +++ join_parts rest
  end.

Definition path_str (p : NodePath) : string := "/" +++ join_parts p.

(** Modelled from the spec: a tree object as the program holds it, a node
    together with the root it hangs from and its path from that root. *)
Record DataTree : Type := mkDataTree {
  dt_root : tree;
  dt_path : NodePath;
  dt_node : tree
}.

Definition name (a : DataTree) : string := t_name (dt_node a).

Definition path (a : DataTree) : NodePath := dt_path a.

Definition root (a : DataTree) : DataTree :=
  mkDataTree (dt_root a) [] (dt_root a).

Definition child_of (a : DataTree) (c : tree) : DataTree :=
  mkDataTree (dt_root a) (dt_path a ++ [t_name c]) c.

Definition children (a : DataTree) : list DataTree :=
  map (child_of a) (t_children (dt_node a)).

Definition is_empty (a : DataTree) : bool :=
  match t_ds (dt_node a) with
  | None => true
  | Some _ => false
  end.

Definition to_dataset (a : DataTree) : option Payload := t_ds (dt_node a).

(** Modelled from the spec: [subtree], the depth-first pre-order traversal,
    root first. *)
Fixpoint preorder (r : tree) (p : NodePath) (t : tree) : list DataTree :=
  match t with
  | Node _ _ cs =>
      mkDataTree r p t :: flat_map (fun c => preorder r (p ++ [t_name c]) c) cs
  end.

Definition subtree (a : DataTree) : list DataTree :=
  preorder (dt_root a) (dt_path a) (dt_node a).

Fixpoint height (t : tree) : nat :=
  match t with
  | Node _ _ cs => S (list_max (map height cs))
  end.

Fixpoint size (t : tree) : nat :=
  match t with
  | Node _ _ cs => S (list_sum (map size cs))
  end.

(** Modelled from the spec: [LevelOrderIter], the breadth-first traversal,
    all nodes at depth d before any at depth d+1.  The loop runs once per
    level; [fuel] bounds the number of levels. *)
Fixpoint level_order_loop (fuel : nat) (level : list DataTree) : list DataTree :=
  match fuel with
  | 0 => []
  | S fuel' =>
      match level with
      | [] => []
      | _ => level ++ level_order_loop fuel' (flat_map children level)
      end
  end.

Definition LevelOrderIter (a : DataTree) : list DataTree :=
  level_order_loop (height (dt_node a)) [a].

(** ** diff_treestructure and check_isomorphic *)

Definition newline : string := String (ascii_of_nat 10) EmptyString.

Definition str_of_nat (n : nat) : string :=
  NilEmpty.string_of_uint (Nat.to_uint n).

(** The two messages as [dedent] leaves them, the indentation of both
    lines removed: this is what it does when no path and no name that is
    substituted holds a line break ([one_line_node]); with a line break
    in one of them a line without indentation appears and [dedent]
    removes nothing. *)
Definition name_diff (node_a node_b : DataTree) : string :=
  "Node '" +++ path_str (path node_a) +++ "' in the left object has name '"
    +++ name node_a +++ "'" +++ newline
    +++ "Node '" +++ path_str (path node_b)
    +++ "' in the right object has name '" +++ name node_b +++ "'".

Definition children_diff (node_a node_b : DataTree) : string :=
  "Number of children on node '" +++ path_str (path node_a)
    +++ "' of the left object: " +++ str_of_nat (length (children node_a))
    +++ newline
    +++ "Number of children on node '" +++ path_str (path node_b)
    +++ "' of the right object: " +++ str_of_nat (length (children node_b)).

(** The body of the loop of [diff_treestructure] at one pair of nodes:
    [Some diff] when it returns, [None] when it goes on. *)
Definition diff_at (require_names_equal : bool) (node_a node_b : DataTree)
  : option string :=
  if require_names_equal && negb (String.eqb (name node_a) (name node_b))
  then Some (name_diff node_a node_b)
  else if negb (Nat.eqb (length (children node_a)) (length (children node_b)))
       then Some (children_diff node_a node_b)
       else None.

Fixpoint diff_loop (require_names_equal : bool)
  (pairs : list (DataTree * DataTree)) : string :=
  match pairs with
  | [] => EmptyString
  | (node_a, node_b) :: rest =>
      match diff_at require_names_equal node_a node_b with
      | Some diff => diff
      | None => diff_loop require_names_equal rest
      end
  end.

Definition diff_treestructure (a b : DataTree) (require_names_equal : bool)
  : string :=
  diff_loop require_names_equal (combine (LevelOrderIter a) (LevelOrderIter b)).

(** An argument of a call: a tree object or any other Python value. *)
Inductive pyarg : Type :=
| ATree (a : DataTree)
| AOther (v : pyval).

Definition type_repr (v : pyval) : string :=
  match v with
  | PNone => "<class 'NoneType'>"
  | PData _ => "<class 'xarray.core.dataset.Dataset'>"
  | PTuple _ => "<class 'tuple'>"
  | POther cls => cls
  end.

Definition check_isomorphic (a b : pyarg) (require_names_equal : bool)
  (check_from_root : bool) : result unit :=
  match a with
  | AOther va =>
      raise (TypeError ("Argument `a` is not a tree, it is of type "
                          +++ type_repr va))
  | ATree ta =>
      match b with
      | AOther vb =>
          raise (TypeError ("Argument `b` is not a tree, it is of type "
                              +++ type_repr vb))
      | ATree tb =>
          let a' := if check_from_root then root ta else ta in
          let b' := if check_from_root then root tb else tb in
          let diff := diff_treestructure a' b' require_names_equal in
          if String.eqb diff EmptyString
          then ret tt
          else raise (TreeIsomorphismError
                        ("DataTree objects are not isomorphic:" +++ newline
                           +++ diff))
      end
  end.

(** ** Dictionaries

    A Python [dict] keeps its keys in insertion order and an assignment to
    a key already present replaces the value in place. *)

Definition dict (K V : Type) : Type := list (K * V).

Fixpoint dict_get {K V : Type} `{KeyEq K} (k : K) (d : dict K V) : option V :=
  match d with
  | [] => None
  | (k', v) :: rest => if keqb k k' then Some v else dict_get k rest
  end.

Fixpoint dict_set {K V : Type} `{KeyEq K} (k : K) (v : V) (d : dict K V)
  : dict K V :=
  match d with
  | [] => [(k, v)]
  | (k', v') :: rest =>
      if keqb k k' then (k', v) :: rest else (k', v') :: dict_set k v rest
  end.

Definition dict_keys {K V : Type} (d : dict K V) : list K := map fst d.
Definition dict_values {K V : Type} (d : dict K V) : list V := map snd d.

(** [dict(pairs)] and [{k: v for k, v in pairs}]. *)
Definition dict_of_pairs {K V : Type} `{KeyEq K} (pairs : list (K * V))
  : dict K V :=
  fold_left (fun d kv => dict_set (fst kv) (snd kv) d) pairs [].

(** ** Calls of the user function *)

(** What the user function receives for one argument: the dataset of a
    node ([to_dataset], with no payload for an empty node) or the value
    passed through. *)
Inductive funarg : Type :=
| FDataset (ds : option Payload)
| FValue (v : pyval).

Record call : Type := mkCall {
  call_args : list funarg;
  call_kwargs : dict string funarg
}.

Definition user_function : Type := list funarg -> dict string funarg -> pyval.

(** ** _check_single_set_return_values and _check_all_return_values *)

Fixpoint check_tuple_items (path_to_node : NodePath) (obj : list pyval)
  : result unit :=
  match obj with
  | [] => ret tt
  | PData _ :: rest => check_tuple_items path_to_node rest
  | r :: _ =>
      raise (TypeError
               ("One of the results of calling func on datasets on the nodes at position "
                  +++ path_str path_to_node +++ " is of type " +++ type_repr r
                  +++ ", not Dataset or DataArray."))
  end.

Definition _check_single_set_return_values (path_to_node : NodePath)
  (obj : pyval) : result nat :=
  match obj with
  | PData _ => ret 1
  | PTuple items =>
      bind (check_tuple_items path_to_node items)
           (fun _ => ret (length items))
  | _ =>
      raise (TypeError
               ("The result of calling func on the node at position "
                  +++ path_str path_to_node +++ " is of type "
                  +++ type_repr obj
                  +++ ", not Dataset or DataArray, nor a tuple of such types."))
  end.

Definition is_None (r : pyval) : bool :=
  match r with
  | PNone => true
  | _ => false
  end.

Definition all_none_message : string :=
  "Called supplied function on all nodes but found a return value of None forall of them.".

Definition inconsistent_message (path_to_node : NodePath)
  (num_return_values : nat) (prev_path : NodePath)
  (prev_num_return_values : nat) : string :=
  "Calling func on the nodes at position " +++ path_str path_to_node
    +++ " returns " +++ str_of_nat num_return_values
    +++ " separate return values, whereas calling func on the nodes at position "
    +++ path_str prev_path +++ " instead returns "
    +++ str_of_nat prev_num_return_values +++ " separate return values.".

(** The loop over [result_data_objects[1:]]; the state is [prev_path],
    [prev_num_return_values] and [num_return_values], the last two [None]
    at the start. *)
Fixpoint check_rest (rest : list (NodePath * pyval)) (prev_path : NodePath)
  (prev_num_return_values num_return_values : option nat)
  : result (option nat) :=
  match rest with
  | [] => ret num_return_values
  | (path_to_node, obj) :: rest' =>
      bind (_check_single_set_return_values path_to_node obj)
           (fun n =>
              match prev_num_return_values with
              | Some prev =>
                  if negb (Nat.eqb n prev)
                  then raise (TypeError
                                (inconsistent_message path_to_node n
                                   prev_path prev))
                  else check_rest rest' path_to_node (Some n) (Some n)
              | None => check_rest rest' path_to_node (Some n) (Some n)
              end)
  end.

Definition _check_all_return_values (returned_objects : dict NodePath pyval)
  : result (option nat) :=
  if forallb is_None (dict_values returned_objects)
  then raise (TypeError all_none_message)
  else
    let result_data_objects :=
      filter (fun pr => negb (is_None (snd pr))) returned_objects in
    match result_data_objects with
    | [(path_to_node, res)] =>
        bind (_check_single_set_return_values path_to_node res)
             (fun n => ret (Some n))
    | (prev_path, _) :: rest => check_rest rest prev_path None None
    | [] => raise (IndexError "list index out of range")
    end.

(** ** map_over_subtree *)

(** What an argument becomes in the walk: the pre-order traversal of a
    tree, or [repeat(a)]. *)
Inductive iterable : Type :=
| ISubtree (nodes : list DataTree)
| IRepeat (v : pyval).

Definition as_tree_length_iterable (a : pyarg) : iterable :=
  match a with
  | ATree t => ISubtree (subtree t)
  | AOther v => IRepeat v
  end.

(** One step of [zip] over the argument iterables: the next item of each
    and the iterables that remain, [None] once one of them is exhausted. *)
Fixpoint next_items (its : list iterable)
  : option (list pyarg * list iterable) :=
  match its with
  | [] => Some ([], [])
  | ISubtree [] :: _ => None
  | ISubtree (n :: nodes) :: rest =>
      match next_items rest with
      | Some (items, rest') => Some (ATree n :: items, ISubtree nodes :: rest')
      | None => None
      end
  | IRepeat v :: rest =>
      match next_items rest with
      | Some (items, rest') => Some (AOther v :: items, IRepeat v :: rest')
      | None => None
      end
  end.

(** [zip] of [first_tree.subtree] with the argument iterables. *)
Fixpoint zip_nodes (first : list DataTree) (its : list iterable)
  : list (DataTree * list pyarg) :=
  match first with
  | [] => []
  | node_of_first_tree :: first' =>
      match next_items its with
      | Some (all_node_args, its') =>
          (node_of_first_tree, all_node_args) :: zip_nodes first' its'
      | None => []
      end
  end.

(** [a.to_dataset() if isinstance(a, DataTree) else a]. *)
Definition as_dataset (a : pyarg) : funarg :=
  match a with
  | ATree t => FDataset (to_dataset t)
  | AOther v => FValue v
  end.

Fixpoint tree_inputs (args : list pyarg) : list DataTree :=
  match args with
  | [] => []
  | ATree t :: rest => t :: tree_inputs rest
  | AOther _ :: rest => tree_inputs rest
  end.

(** The deferred call recorded for one step of the walk, [None] when the
    node of the first tree is empty. *)
Definition node_results (n_args : nat) (keys : list string)
  (node_of_first_tree : DataTree) (all_node_args : list pyarg)
  : option call :=
  let node_args_as_datasets := map as_dataset (firstn n_args all_node_args) in
  let node_kwargs_as_datasets :=
    dict_of_pairs
      (combine keys (map as_dataset (skipn n_args all_node_args))) in
  if negb (is_empty node_of_first_tree)
  then Some (mkCall node_args_as_datasets node_kwargs_as_datasets)
  else None.

(** The walk over all trees: the dictionary [out_data_objects] of deferred
    calls, keyed by the path of the node of the first tree, held by its
    parts.  [walk_by_text] is the same loop with the text of the path as
    the key; the two are the same dictionary when the names are well
    formed ([walk_by_text_walk]). *)
Definition walk (first_tree : DataTree) (args : list pyarg)
  (kwargs : dict string pyarg) : dict NodePath (option call) :=
  let args_as_tree_length_iterables := map as_tree_length_iterable args in
  let n_args := length args_as_tree_length_iterables in
  let kwargs_as_tree_length_iterables :=
    map (fun kv => (fst kv, as_tree_length_iterable (snd kv))) kwargs in
  fold_left
    (fun out_data_objects step =>
       dict_set (path (fst step))
         (node_results n_args (dict_keys kwargs_as_tree_length_iterables)
            (fst step) (snd step))
         out_data_objects)
    (zip_nodes (subtree first_tree)
       (args_as_tree_length_iterables
          ++ dict_values kwargs_as_tree_length_iterables))
    [].

(** [dask.compute]: every deferred call is run, once; the first component
    lists the calls of the user function that were made, each with the key
    it was recorded under.  A deferred call is the application of [func]
    to the arguments and keywords it was made with: this is what
    [dask.delayed] does for keywords other than its own ([plain_kwargs]),
    every deferred call then having a key of its own in the task graph.
    The calls are listed in the order of the dictionary; the order in
    which they are run is left to the scheduler and is not modelled. *)
Definition resolve (func : user_function) (v : option call) : pyval :=
  match v with
  | Some c => func (call_args c) (call_kwargs c)
  | None => PNone
  end.

Definition calls_made (out_data_objects : dict NodePath (option call))
  : list (NodePath * call) :=
  flat_map (fun kv => match snd kv with
                      | Some c => [(fst kv, c)]
                      | None => []
                      end) out_data_objects.

Definition compute (func : user_function)
  (out_data_objects : dict NodePath (option call))
  : list (NodePath * call) * dict NodePath pyval :=
  let keys := dict_keys out_data_objects in
  let values := map (resolve func) (dict_values out_data_objects) in
  (calls_made out_data_objects, dict_of_pairs (combine keys values)).

(** Modelled from the spec: [NodePath(p).relative_to(root)], the parts of
    [p] below [root]; [None] when [root] is not an ancestor of [p].  The
    text of the result is the slash-joined parts, ["."] when there is
    none.  [NodePath] drops parts that are empty or ["."] when it reads a
    text ([parts_of_text]); paths of well-formed names have none. *)
Fixpoint relative_to (p root_path : NodePath) {struct root_path}
  : option NodePath :=
  match root_path with
  | [] => Some p
  | r :: root_path' =>
      match p with
      | [] => None
      | x :: p' => if String.eqb x r then relative_to p' root_path' else None
      end
  end.

Definition relative_str (p : NodePath) : string :=
  match p with
  | [] => "."
  | _ => join_parts p
  end.

(** Modelled from the spec: [DataTree.from_dict] is the collaborator's
    constructor; a built tree is kept as the mapping and the name it is
    built from. *)
Record built_tree : Type := from_dict {
  bt_contents : dict string pyval;
  bt_name : string
}.

(** The data of output [i] at path [p]. *)
Definition output_node_data (out_data_objects : dict NodePath pyval)
  (p : NodePath) (i : nat) : result pyval :=
  match dict_get p out_data_objects with
  | Some (PTuple items) =>
      match nth_error items i with
      | Some x => ret x
      | None => raise (IndexError "tuple index out of range")
      end
  | Some v => ret v
  | None => ret PNone
  end.

(** The loop [for n in first_tree.subtree] that fills [out_tree_contents]
    for output [i].  The key of a node is computed on the parts of the
    two paths; computed from their texts, as the source does
    ([relative_path_of_text]), it is the same key when the names are well
    formed ([relative_path_of_text_key]). *)
Fixpoint fill_contents (out_data_objects : dict NodePath pyval)
  (original_root_path : NodePath) (i : nat) (nodes : list DataTree)
  (out_tree_contents : dict string pyval) : result (dict string pyval) :=
  match nodes with
  | [] => ret out_tree_contents
  | n :: rest =>
      let p := path n in
      bind (output_node_data out_data_objects p i)
        (fun data =>
           match relative_to p original_root_path with
           | None =>
               raise (ValueError
                        (path_str p +++ " is not in the subpath of "
                           +++ path_str original_root_path))
           | Some rel =>
               let relative_path := relative_str rel in
               let relative_path :=
                 if String.eqb relative_path "." then "/"%string
                 else relative_path in
               fill_contents out_data_objects original_root_path i rest
                 (dict_set relative_path data out_tree_contents)
           end)
  end.

(** The loop [for i in range(num_return_values)] that builds
    [result_trees]. *)
Fixpoint result_trees (first_tree : DataTree)
  (out_data_objects : dict NodePath pyval) (indices : list nat)
  : result (list built_tree) :=
  match indices with
  | [] => ret []
  | i :: rest =>
      bind (fill_contents out_data_objects (path first_tree) i
              (subtree first_tree) [])
        (fun out_tree_contents =>
           let new_tree := from_dict out_tree_contents (name first_tree) in
           bind (result_trees first_tree out_data_objects rest)
             (fun trees => ret (new_tree :: trees)))
  end.

(** What the mapped function returns: one tree, or a tuple of trees. *)
Inductive mapped : Type :=
| OneTree (t : built_tree)
| TreeTuple (ts : list built_tree).

(** The loop [for other_tree in other_trees] of isomorphism checks. *)
Fixpoint check_others (first_tree : DataTree) (other_trees : list DataTree)
  : result unit :=
  match other_trees with
  | [] => ret tt
  | other_tree :: rest =>
      bind (check_isomorphic (ATree first_tree) (ATree other_tree) false false)
        (fun _ => check_others first_tree rest)
  end.

(** [_map_over_subtree] for the function [func] (with [parallel = True],
    as the source has it): the calls of [func] that were made, and the
    trees returned or the exception. *)
Definition _map_over_subtree (func : user_function) (args : list pyarg)
  (kwargs : dict string pyarg) : list (NodePath * call) * result mapped :=
  let all_tree_inputs := tree_inputs args ++ tree_inputs (dict_values kwargs) in
  match all_tree_inputs with
  | [] => ([], raise (TypeError "Must pass at least one tree object"))
  | first_tree :: other_trees =>
      match check_others first_tree other_trees with
      | inl e => ([], inl e)
      | inr _ =>
          let out_data_objects := walk first_tree args kwargs in
          let (calls, out_data_objects) := compute func out_data_objects in
          (calls,
           bind (_check_all_return_values out_data_objects)
             (fun num_return_values =>
                match num_return_values with
                | None =>
                    raise (TypeError
                             "'NoneType' object cannot be interpreted as an integer")
                | Some k =>
                    bind (result_trees first_tree out_data_objects (seq 0 k))
                      (fun trees =>
                         match trees with
                         | [t] => ret (OneTree t)
                         | _ => ret (TreeTuple trees)
                         end)
                end))
      end
  end.

(** ** The isomorphism relation of the specification *)

(** Two paired nodes agree: the same number of children and, if required,
    the same name. *)
Definition nodes_agree (require_names_equal : bool) (node_a node_b : DataTree)
  : Prop :=
  (require_names_equal = true -> name node_a = name node_b)
  /\ length (children node_a) = length (children node_b).

(** The relation as the specification words it: walked in level-order in
    lock-step, every corresponding pair of nodes has the same number of
    children (and, if required, the same name). *)
Definition isomorphic (require_names_equal : bool) (a b : DataTree) : Prop :=
  Forall (fun ab => nodes_agree require_names_equal (fst ab) (snd ab))
    (combine (LevelOrderIter a) (LevelOrderIter b)).

(** The branching structure of a tree: payloads dropped, names kept only
    when they are compared. *)
Fixpoint skeleton (require_names_equal : bool) (t : tree) : tree :=
  match t with
  | Node n _ cs =>
      Node (if require_names_equal then n else EmptyString) None
        (map (skeleton require_names_equal) cs)
  end.

(** Induction on trees, with the hypothesis on every child. *)
Fixpoint tree_rect' (P : tree -> Prop)
  (H : forall n d cs, Forall P cs -> P (Node n d cs)) (t : tree) : P t :=
  match t with
  | Node n d cs =>
      H n d cs
        ((fix go (l : list tree) : Forall P l :=
            match l with
            | [] => Forall_nil P
            | c :: l' => Forall_cons c (tree_rect' P H c) (go l')
            end) cs)
  end.

(** The greatest height in a level. *)
Definition level_height (level : list DataTree) : nat :=
  list_max (map (fun a => height (dt_node a)) level).

(** ** Arity and elements of a result *)

Definition is_data (v : pyval) : bool :=
  match v with
  | PData _ => true
  | _ => false
  end.

(** The arity of a valid result: 1 for a payload, the length of a tuple
    of payloads. *)
Definition arity (v : pyval) : option nat :=
  match v with
  | PData _ => Some 1
  | PTuple items => if forallb is_data items then Some (length items) else None
  | _ => None
  end.

(** Element [i] of a result: of a tuple its item, else the result itself. *)
Definition element (i : nat) (v : pyval) : pyval :=
  match v with
  | PTuple items => nth i items PNone
  | _ => v
  end.

(** ** The positions of a walk, and what is recorded at them *)

(** The steps of the walk: each node of the first tree that is reached,
    with the items that the argument iterables yield beside it. *)
Definition steps (first_tree : DataTree) (args : list pyarg)
  (kwargs : dict string pyarg) : list (DataTree * list pyarg) :=
  zip_nodes (subtree first_tree)
    (map as_tree_length_iterable (args ++ dict_values kwargs)).

Definition call_at (args : list pyarg) (kwargs : dict string pyarg)
  (step : DataTree * list pyarg) : option call :=
  node_results (length args) (dict_keys kwargs) (fst step) (snd step).

(** The per-node result map once the deferred calls are resolved. *)
Definition returned_objects (func : user_function) (first_tree : DataTree)
  (args : list pyarg) (kwargs : dict string pyarg) : dict NodePath pyval :=
  snd (compute func (walk first_tree args kwargs)).

(** The call has [first_tree] as its first tree argument and passes the
    isomorphism checks, so that it goes on to the walk. *)
Definition reaches_walk (args : list pyarg) (kwargs : dict string pyarg)
  (first_tree : DataTree) : Prop :=
  exists other_trees,
    tree_inputs args ++ tree_inputs (dict_values kwargs)
    = first_tree :: other_trees
    /\ check_others first_tree other_trees = ret tt.

Definition normalize_relative (rel : NodePath) : string :=
  let relative_path := relative_str rel in
  if String.eqb relative_path "." then "/" else relative_path.

(** The key of a node in the mapping an output tree is built from. *)
Definition output_key (first_tree n : DataTree) : option string :=
  option_map normalize_relative (relative_to (path n) (path first_tree)).

(** No two nodes of [first_tree] have the same relative path, the key
    under which an output tree holds the node.  Trees with well-formed
    names ([named_well]) are so ([well_named_paths_unique]). *)
Definition paths_unique (first_tree : DataTree) : Prop :=
  NoDup (map (output_key first_tree) (subtree first_tree)).

Definition trees_of (m : mapped) : list built_tree :=
  match m with
  | OneTree t => [t]
  | TreeTuple ts => ts
  end.

(** The paths of the nodes of a tree below its own root: what is left
    of a path once the ancestry of the node is dropped. *)
Definition relative_paths (t : tree) : list NodePath :=
  map path (preorder t [] t).

Definition key_of (first_tree n : DataTree) : string :=
  match output_key first_tree n with
  | Some key => key
  | None => EmptyString
  end.

(** The data of output [i] at node [n], read off the per-node result map. *)
Definition node_output (out_data_objects : dict NodePath pyval) (i : nat)
  (n : DataTree) : pyval :=
  match dict_get (path n) out_data_objects with
  | Some v => element i v
  | None => PNone
  end.


(** What the function returns when it is called at a step. *)
Definition call_result (func : user_function) (args : list pyarg)
  (kwargs : dict string pyarg) (step : DataTree * list pyarg) : pyval :=
  func (map as_dataset (firstn (length args) (snd step)))
    (dict_of_pairs
       (combine (dict_keys kwargs)
          (map as_dataset (skipn (length args) (snd step))))).

(** Output tree [i] as the specification describes it: at every node of
    the first tree, element [i] of what the function returned there, and
    nothing at an empty node. *)
Definition mapped_tree (func : user_function) (args : list pyarg)
  (kwargs : dict string pyarg) (first_tree : DataTree) (i : nat)
  : built_tree :=
  from_dict
    (map (fun step =>
            (key_of first_tree (fst step),
             if is_empty (fst step) then PNone
             else element i (call_result func args kwargs step)))
       (steps first_tree args kwargs))
    (name first_tree).

(** ** A node without its ancestry *)

(** The same node taken as the root of a tree of its own. *)
Definition detach (a : DataTree) : DataTree :=
  mkDataTree (dt_node a) [] (dt_node a).

Definition detach_arg (x : pyarg) : pyarg :=
  match x with
  | ATree a => ATree (detach a)
  | AOther v => AOther v
  end.

Definition detach_kwargs (kwargs : dict string pyarg) : dict string pyarg :=
  map (fun kv => (fst kv, detach_arg (snd kv))) kwargs.

(** The keys of a dictionary of paths moved below the path [p]. *)
Definition below {V : Type} (p : NodePath) (d : dict NodePath V)
  : dict NodePath V :=
  map (fun kv => (p ++ fst kv, snd kv)) d.

(** What a step gives to the function: the node of the first tree and the
    datasets and values beside it. *)
Definition step_data (step : DataTree * list pyarg) : tree * list funarg :=
  (dt_node (fst step), map as_dataset (snd step)).

(** Two results that are the same value, or both an exception. *)
Definition same_outcome {A : Type} (r1 r2 : result A) : Prop :=
  match r1, r2 with
  | inr x, inr y => x = y
  | inl _, inl _ => True
  | _, _ => False
  end.

(** The call recorded at a step, from what the step gives. *)
Definition call_of_data (n_args : nat) (keys : list string)
  (data : tree * list funarg) : option call :=
  match t_ds (fst data) with
  | Some _ =>
      Some (mkCall (firstn n_args (snd data))
              (dict_of_pairs (combine keys (skipn n_args (snd data)))))
  | None => None
  end.

(** ** Well-named trees *)

(** A condition on the names below the root under which paths are unique:
    sibling names are distinct, and a name is not empty, not ["."] and
    holds no ["/"]. *)
Fixpoint slash_free (s : string) : bool :=
  match s with
  | EmptyString => true
  | String c s' => negb (Ascii.eqb c "/") && slash_free s'
  end.

Definition name_ok (s : string) : bool :=
  negb (String.eqb s EmptyString) && negb (String.eqb s ".") && slash_free s.

Fixpoint distinct (names : list string) : bool :=
  match names with
  | [] => true
  | x :: rest => negb (existsb (String.eqb x) rest) && distinct rest
  end.

Fixpoint well_named (t : tree) : bool :=
  match t with
  | Node _ _ cs =>
      forallb (fun c => name_ok (t_name c)) cs
      && distinct (map t_name cs)
      && forallb well_named cs
  end.

(** ** Paths as texts *)

(** The names on the way from the root down to a tree object, and the
    names below it, are well formed. *)
Definition named_well (a : DataTree) : bool :=
  forallb name_ok (dt_path a) && well_named (dt_node a).

(** The invariant of the tree capability, paths are unique within one
    tree, for the nodes of a tree object: no two of them have the same
    path, the text under which the source records what is done at the
    node. *)
Definition unique_path_texts (a : DataTree) : Prop :=
  NoDup (map (fun n => path_str (path n)) (subtree a)).

(** The keywords that [dask.delayed] keeps for itself when the deferred
    function is called: they are not passed on to the function. *)
Definition dask_keywords : list string := ["dask_key_name"; "pure"].

Definition plain_kwargs (kwargs : dict string pyarg) : bool :=
  forallb (fun key => negb (existsb (String.eqb key) dask_keywords))
    (dict_keys kwargs).

(** A text without a line break. *)
Fixpoint one_line (s : string) : bool :=
  match s with
  | EmptyString => true
  | String c s' => negb (Ascii.eqb c (ascii_of_nat 10)) && one_line s'
  end.

Definition one_line_node (n : DataTree) : bool :=
  one_line (name n) && one_line (path_str (path n)).

(** The pieces of a text between its slashes; [cur] is the piece that is
    being read. *)
Fixpoint split_slash (text cur : string) : list string :=
  match text with
  | EmptyString => [cur]
  | String c rest =>
      if Ascii.eqb c "/" then cur :: split_slash rest EmptyString
      else split_slash rest (cur +++ String c EmptyString)
  end.

(** Modelled from the spec: the parts below the root that [NodePath]
    makes of the text of a path: the pieces between the slashes, without
    those that are empty or ["."]. *)
Definition parts_of_text (text : string) : list string :=
  filter (fun x => negb (String.eqb x EmptyString) && negb (String.eqb x "."))
    (split_slash text EmptyString).

(** The loop of [walk] with the keys as the source has them (line 225),
    the texts of the paths. *)
Definition walk_by_text (first_tree : DataTree) (args : list pyarg)
  (kwargs : dict string pyarg) : dict string (option call) :=
  let args_as_tree_length_iterables := map as_tree_length_iterable args in
  let n_args := length args_as_tree_length_iterables in
  let kwargs_as_tree_length_iterables :=
    map (fun kv => (fst kv, as_tree_length_iterable (snd kv))) kwargs in
  fold_left
    (fun out_data_objects step =>
       dict_set (path_str (path (fst step)))
         (node_results n_args (dict_keys kwargs_as_tree_length_iterables)
            (fst step) (snd step))
         out_data_objects)
    (zip_nodes (subtree first_tree)
       (args_as_tree_length_iterables
          ++ dict_values kwargs_as_tree_length_iterables))
    [].

(** The key of an output mapping computed from two texts, as lines 253
    and 254 do. *)
Definition relative_path_of_text (p original_root_path : string)
  : option string :=
  option_map normalize_relative
    (relative_to (parts_of_text p) (parts_of_text original_root_path)).

(** A dictionary of paths with every key as its text. *)
Definition keys_as_text {V : Type} (d : dict NodePath V) : dict string V :=
  map (fun kv => (path_str (fst kv), snd kv)) d.

(** ** Messages of the return-value validator *)

(** The text of the [TypeError] raised for an item [r] of a tuple. *)
Definition item_type_message (path_to_node : NodePath) (r : pyval) : string :=
  "One of the results of calling func on datasets on the nodes at position "
    +++ path_str path_to_node +++ " is of type " +++ type_repr r
    +++ ", not Dataset or DataArray.".

(** The entries of a result map that are not [None]. *)
Definition non_null (returned_objects : dict NodePath pyval)
  : list (NodePath * pyval) :=
  filter (fun pr => negb (is_None (snd pr))) returned_objects.

(** ** What a call of the user function is given *)

(** The argument [x] given for the argument [a] of the mapped call: [a]
    itself when it is no tree, the dataset of one of its nodes when it
    is. *)
Definition passed (a : pyarg) (x : funarg) : Prop :=
  match a with
  | AOther v => x = FValue v
  | ATree t => exists n, In n (subtree t) /\ x = FDataset (to_dataset n)
  end.

(** An item that an iterable can yield, and an iterable that yields only
    items of another. *)
Definition drawn (it : iterable) (x : pyarg) : Prop :=
  match it with
  | IRepeat v => x = AOther v
  | ISubtree nodes => exists n, In n nodes /\ x = ATree n
  end.

Definition within (it' it : iterable) : Prop :=
  match it', it with
  | IRepeat v', IRepeat v => v' = v
  | ISubtree nodes', ISubtree nodes => forall n, In n nodes' -> In n nodes
  | _, _ => False
  end.

(** The function on trees that a function [g] on payloads gives: [g] on
    the dataset of the first positional argument. *)
Definition payload_func (g : Payload -> Payload) : user_function :=
  fun args _ =>
    match args with
    | FDataset (Some d) :: _ => PData (g d)
    | _ => PNone
    end.

(** The data of a node as an output tree holds it. *)
Definition node_data (g : Payload -> Payload) (n : DataTree) : pyval :=
  match to_dataset n with
  | Some d => PData (g d)
  | None => PNone
  end.

(** ** Arguments with the same data *)

(** Two arguments that give the function the same data: the same value,
    or two trees with the same datasets in traversal order. *)
Definition same_arg (a a' : pyarg) : Prop :=
  match a, a' with
  | ATree t, ATree t' =>
      map to_dataset (subtree t) = map to_dataset (subtree t')
  | AOther v, AOther v' => v = v'
  | _, _ => False
  end.

Definition same_data (it it' : iterable) : Prop :=
  match it, it' with
  | ISubtree nodes, ISubtree nodes' =>
      map to_dataset nodes = map to_dataset nodes'
  | IRepeat v, IRepeat v' => v = v'
  | _, _ => False
  end.

(** A step with the items replaced by what the function is given. *)
Definition step_given (step : DataTree * list pyarg)
  : DataTree * list funarg :=
  (fst step, map as_dataset (snd step)).

(** ** Sample trees and functions *)

(** [root{a{c}, b}]: payloads at [root] and [a], none at [a/c] and [b]. *)
Definition sample_tree (P0 P1 : Payload) : tree :=
  Node "root" (Some P0)
    [Node "a" (Some P1) [Node "c" None []]; Node "b" None []].

(** The same shape under other names, with a payload only at the second
    child. *)
Definition sample_cotree (Q : Payload) : tree :=
  Node "top" None [Node "x" None [Node "z" None []]; Node "y" (Some Q) []].

Definition sample_third (R : Payload) : tree :=
  Node "r" None [Node "u" None [Node "w" (Some R) []]; Node "v" None []].

(** A tree object that is the root of its tree. *)
Definition as_root (t : tree) : DataTree := mkDataTree t [] t.

(** The node [a] of [sample_tree], held with its ancestry. *)
Definition sample_subtree (P0 P1 : Payload) : DataTree :=
  mkDataTree (sample_tree P0 P1) ["a"] (Node "a" (Some P1) [Node "c" None []]).

(** Two trees of different node counts and different root names. *)
Definition two_nodes (P : Payload) : tree :=
  Node "x" (Some P) [Node "c" None []].
Definition one_node (P : Payload) : tree := Node "y" (Some P) [].

(** [f(ds) -> ds] and [f(ds) -> (ds, ds)] on the first positional argument. *)
Definition identity_func : user_function :=
  fun args _ =>
    match args with
    | FDataset (Some d) :: _ => PData d
    | _ => PNone
    end.

Definition pair_func : user_function :=
  fun args _ =>
    match args with
    | FDataset (Some d) :: _ => PTuple [PData d; PData d]
    | _ => PTuple [POther "<class 'int'>"; POther "<class 'int'>"]
    end.

(** A function that returns a pair at the payloads that [pick] selects
    and a single payload at the others. *)
Definition mixed_func (pick : Payload -> bool) : user_function :=
  fun args _ =>
    match args with
    | FDataset (Some d) :: _ =>
        if pick d then PTuple [PData d; PData d] else PData d
    | _ => PNone
    end.

Definition none_func : user_function := fun _ _ => PNone.


(** The node [b] of [sample_tree] and the node [y] of [sample_cotree],
    which lie at the same position. *)
Definition sample_node_b (P0 P1 : Payload) : DataTree :=
  mkDataTree (sample_tree P0 P1) ["b"] (Node "b" None []).


(** A call on two trees: the first tree and a co-tree. *)
Definition sample_args (P0 P1 Q : Payload) : list pyarg :=
  [ATree (as_root (sample_tree P0 P1)); ATree (as_root (sample_cotree Q))].

(** [sample_cotree] under yet other names, root included. *)
Definition sample_cotree_renamed (Q : Payload) : tree :=
  Node "t" None [Node "k" None [Node "m" None []]; Node "l" (Some Q) []].



(** ** Facts on lists *)

Lemma app_eq_length_inv {A : Type} (l1 l1' l2 l2' : list A) :
  length l1 = length l1' -> l1 ++ l2 = l1' ++ l2' -> l1 = l1' /\ l2 = l2'.
Proof.
  revert l1'; induction l1 as [|x l1 IH]; intros [|y l1'] Hlen Heq;
    simpl in *; try discriminate.
  - split; [reflexivity | exact Heq].
  - injection Heq as -> Heq. injection Hlen as Hlen.
    destruct (IH _ Hlen Heq) as [-> ->]. split; reflexivity.
Qed.

Lemma combine_app_same_length {A B : Type} (l1 l2 : list A) (m1 m2 : list B) :
  length l1 = length m1 ->
  combine (l1 ++ l2) (m1 ++ m2) = combine l1 m1 ++ combine l2 m2.
Proof.
  revert m1; induction l1 as [|x l1 IH]; intros [|y m1] Hlen;
    simpl in *; try discriminate; [reflexivity|].
  injection Hlen as Hlen. now rewrite IH.
Qed.

Lemma Forall_combine_diag {A : Type} (P : A * A -> Prop) (l : list A) :
  (forall x, P (x, x)) -> Forall P (combine l l).
Proof.
  intros HP; induction l as [|x l IH]; simpl; constructor; auto.
Qed.

(** ** Level-order traversal *)

Lemma dt_node_children (a : DataTree) :
  map dt_node (children a) = t_children (dt_node a).
Proof.
  unfold children. rewrite map_map. simpl. apply map_id.
Qed.

Lemma length_children (a : DataTree) :
  length (children a) = length (t_children (dt_node a)).
Proof. unfold children. apply length_map. Qed.

Lemma dt_node_next_level (level : list DataTree) :
  map dt_node (flat_map children level)
  = flat_map t_children (map dt_node level).
Proof.
  induction level as [|a level IH]; simpl; [reflexivity|].
  now rewrite map_app, dt_node_children, IH.
Qed.

Lemma height_child (t c : tree) :
  In c (t_children t) -> S (height c) <= height t.
Proof.
  destruct t as [n d cs]; simpl; intros Hin.
  apply le_n_S.
  assert (H : Forall (fun k => k <= list_max (map height cs)) (map height cs))
    by (apply list_max_le; lia).
  rewrite Forall_forall in H. apply H. now apply in_map.
Qed.

Lemma level_height_le (level : list DataTree) (k : nat) :
  level_height level <= k <->
  Forall (fun a => height (dt_node a) <= k) level.
Proof.
  unfold level_height. rewrite list_max_le, Forall_map. reflexivity.
Qed.

Lemma level_height_next (level : list DataTree) (k : nat) :
  level_height level <= S k -> level_height (flat_map children level) <= k.
Proof.
  rewrite !level_height_le, !Forall_forall.
  intros H c Hc. apply in_flat_map in Hc as (a & Ha & Hc).
  unfold children in Hc. apply in_map_iff in Hc as (t & <- & Ht).
  simpl. specialize (H a Ha). apply height_child in Ht. lia.
Qed.

Lemma level_height_pos (a : DataTree) (level : list DataTree) :
  1 <= level_height (a :: level).
Proof.
  unfold level_height.
  change (1 <= Nat.max (height (dt_node a))
                (list_max (map (fun a => height (dt_node a)) level))).
  assert (1 <= height (dt_node a)) by (destruct (dt_node a); simpl; lia).
  lia.
Qed.

(** Fuel beyond the height of the level changes nothing: the loop has
    stopped on an empty level before it runs out. *)
Lemma level_order_loop_fuel (f f' : nat) (level : list DataTree) :
  level_height level <= f -> level_height level <= f' ->
  level_order_loop f level = level_order_loop f' level.
Proof.
  revert f' level; induction f as [|f IH]; intros f' level Hf Hf'.
  - destruct level as [|a level].
    + destruct f'; reflexivity.
    + pose proof (level_height_pos a level). lia.
  - destruct level as [|a level]; [destruct f'; reflexivity|].
    destruct f' as [|f']; [pose proof (level_height_pos a level); lia|].
    simpl. do 2 f_equal.
    apply (IH f' (flat_map children (a :: level)));
      now apply level_height_next.
Qed.

(** ** The diff is empty exactly on agreeing pairs *)

Lemma diff_at_None (rne : bool) (a b : DataTree) :
  diff_at rne a b = None <-> nodes_agree rne a b.
Proof.
  unfold diff_at, nodes_agree.
  destruct (String.eqb_spec (name a) (name b)) as [Hn|Hn];
    destruct (Nat.eqb_spec (length (children a)) (length (children b)))
      as [Hc|Hc];
    destruct rne; simpl; split;
    try discriminate; try (intros _; split; [intros; congruence | assumption]);
    try (intros [H1 H2]; try reflexivity; try (now elim Hc);
         now elim Hn; apply H1).
Qed.

Lemma name_diff_nonempty (a b : DataTree) : name_diff a b <> EmptyString.
Proof. unfold name_diff; simpl; discriminate. Qed.

Lemma children_diff_nonempty (a b : DataTree) :
  children_diff a b <> EmptyString.
Proof. unfold children_diff; simpl; discriminate. Qed.

Lemma diff_at_nonempty (rne : bool) (a b : DataTree) (d : string) :
  diff_at rne a b = Some d -> d <> EmptyString.
Proof.
  unfold diff_at.
  destruct (rne && _); [intros [= <-]; apply name_diff_nonempty|].
  destruct (negb _); [intros [= <-]; apply children_diff_nonempty|].
  discriminate.
Qed.

Lemma diff_loop_empty (rne : bool) (pairs : list (DataTree * DataTree)) :
  diff_loop rne pairs = EmptyString <->
  Forall (fun ab => nodes_agree rne (fst ab) (snd ab)) pairs.
Proof.
  induction pairs as [|[a b] pairs IH]; simpl.
  - split; [constructor | reflexivity].
  - destruct (diff_at rne a b) as [d|] eqn:Hd.
    + split.
      * intros ->. now apply diff_at_nonempty in Hd.
      * intros H. inversion H as [|? ? Hab _]; subst.
        apply diff_at_None in Hab. simpl in Hab. congruence.
    + rewrite IH. split.
      * intros H. constructor; [now apply diff_at_None | exact H].
      * intros H. now inversion H.
Qed.

(** ** Agreement along the level order is equality of skeletons *)

Lemma skeleton_node (rne : bool) (a : DataTree) :
  skeleton rne (dt_node a)
  = Node (if rne then name a else EmptyString) None
      (map (skeleton rne) (map dt_node (children a))).
Proof.
  rewrite dt_node_children. unfold name. now destruct (dt_node a).
Qed.

Lemma skeleton_agree (rne : bool) (a b : DataTree) :
  skeleton rne (dt_node a) = skeleton rne (dt_node b) -> nodes_agree rne a b.
Proof.
  rewrite !skeleton_node. intros [= Hn Hc]. split.
  - intros ->. exact Hn.
  - apply (f_equal (@length _)) in Hc. now rewrite !length_map in Hc.
Qed.

Lemma skeleton_level_agree (rne : bool) (la lb : list DataTree) :
  map (skeleton rne) (map dt_node la) = map (skeleton rne) (map dt_node lb) ->
  Forall (fun ab => nodes_agree rne (fst ab) (snd ab)) (combine la lb).
Proof.
  revert lb; induction la as [|a la IH]; intros [|b lb] H; simpl in *;
    try constructor; try discriminate.
  - injection H as Hab _. now apply skeleton_agree.
  - injection H as _ H. now apply IH.
Qed.

Lemma skeleton_next_level (rne : bool) (la lb : list DataTree) :
  map (skeleton rne) (map dt_node la) = map (skeleton rne) (map dt_node lb) ->
  map (skeleton rne) (map dt_node (flat_map children la))
  = map (skeleton rne) (map dt_node (flat_map children lb)).
Proof.
  revert lb; induction la as [|a la IH]; intros [|b lb] H; simpl in *;
    try reflexivity; try discriminate.
  injection H as Hab H.
  rewrite !map_app, (IH _ H). f_equal.
  rewrite !skeleton_node in Hab. now injection Hab.
Qed.

Lemma skeleton_level_order (rne : bool) (fa fb : nat) (la lb : list DataTree) :
  map (skeleton rne) (map dt_node la) = map (skeleton rne) (map dt_node lb) ->
  Forall (fun ab => nodes_agree rne (fst ab) (snd ab))
    (combine (level_order_loop fa la) (level_order_loop fb lb)).
Proof.
  revert fb la lb; induction fa as [|fa IH]; intros fb la lb H;
    [constructor|].
  destruct la as [|a la]; [constructor|].
  destruct lb as [|b lb]; [discriminate|].
  destruct fb as [|fb]; [constructor|].
  cbn [level_order_loop].
  rewrite combine_app_same_length.
  - apply Forall_app; split.
    + now apply skeleton_level_agree.
    + apply IH. now apply skeleton_next_level.
  - apply (f_equal (@length _)) in H. now rewrite !length_map in H.
Qed.

Lemma agree_next_length (rne : bool) (la lb : list DataTree) :
  length la = length lb ->
  Forall (fun ab => nodes_agree rne (fst ab) (snd ab)) (combine la lb) ->
  length (flat_map children la) = length (flat_map children lb).
Proof.
  revert lb; induction la as [|a la IH]; intros [|b lb] Hlen H; simpl in *;
    try reflexivity; try discriminate.
  inversion H as [|? ? [_ Hab] H']; subst. simpl in Hab.
  rewrite !length_app, Hab. f_equal. apply IH; [lia | exact H'].
Qed.

Lemma skeleton_rebuild (rne : bool) (la lb : list DataTree) :
  length la = length lb ->
  Forall (fun ab => nodes_agree rne (fst ab) (snd ab)) (combine la lb) ->
  map (skeleton rne) (map dt_node (flat_map children la))
  = map (skeleton rne) (map dt_node (flat_map children lb)) ->
  map (skeleton rne) (map dt_node la) = map (skeleton rne) (map dt_node lb).
Proof.
  revert lb; induction la as [|a la IH]; intros [|b lb] Hlen H Hnext;
    simpl in *; try reflexivity; try discriminate.
  inversion H as [|? ? [Hn Hc] H']; subst. simpl in Hn, Hc.
  rewrite !map_app in Hnext.
  apply app_eq_length_inv in Hnext as [Hcs Hrest];
    [|now rewrite !length_map].
  f_equal.
  - rewrite !skeleton_node, Hcs. f_equal. destruct rne; [now apply Hn|reflexivity].
  - apply IH; [lia | exact H' | exact Hrest].
Qed.

Lemma agree_level_order_skeleton (rne : bool) (fa : nat) :
  forall (fb : nat) (la lb : list DataTree),
    level_height la <= fa -> level_height lb <= fb ->
    length la = length lb ->
    Forall (fun ab => nodes_agree rne (fst ab) (snd ab))
      (combine (level_order_loop fa la) (level_order_loop fb lb)) ->
    map (skeleton rne) (map dt_node la) = map (skeleton rne) (map dt_node lb).
Proof.
  induction fa as [|fa IH]; intros fb la lb Ha Hb Hlen H.
  - destruct la as [|a la]; [|pose proof (level_height_pos a la); lia].
    destruct lb; [reflexivity | discriminate].
  - destruct la as [|a la]; [destruct lb; [reflexivity | discriminate]|].
    destruct lb as [|b lb]; [discriminate|].
    destruct fb as [|fb]; [pose proof (level_height_pos b lb); lia|].
    cbn [level_order_loop] in H.
    rewrite combine_app_same_length in H by exact Hlen.
    apply Forall_app in H as [Hlevel Hrest].
    apply skeleton_rebuild; [exact Hlen | exact Hlevel |].
    apply (IH fb); try (now apply level_height_next); [|exact Hrest].
    now apply (agree_next_length rne).
Qed.

(** The diff of two trees is empty exactly when their skeletons are equal. *)
Lemma diff_empty_skeleton (a b : DataTree) (rne : bool) :
  diff_treestructure a b rne = EmptyString <->
  skeleton rne (dt_node a) = skeleton rne (dt_node b).
Proof.
  unfold diff_treestructure, LevelOrderIter. rewrite diff_loop_empty. split.
  - intros H.
    assert (Hs : map (skeleton rne) (map dt_node [a])
                 = map (skeleton rne) (map dt_node [b])).
    { apply (agree_level_order_skeleton rne _ _ [a] [b]) in H;
        try reflexivity; try exact H;
        unfold level_height; simpl; lia. }
    now injection Hs.
  - intros H. apply skeleton_level_order. simpl. now rewrite H.
Qed.

(** ** Node counts *)

Lemma size_skeleton (rne : bool) (t : tree) : size (skeleton rne t) = size t.
Proof.
  induction t as [n d cs IH] using tree_rect'. simpl. f_equal.
  rewrite map_map. f_equal. apply map_ext_in.
  rewrite Forall_forall in IH. exact IH.
Qed.

Lemma length_preorder (t : tree) :
  forall (r : tree) (p : NodePath), length (preorder r p t) = size t.
Proof.
  induction t as [n d cs IH] using tree_rect'. intros r p. simpl. f_equal.
  induction IH as [|c cs Hc _ IHcs]; simpl; [reflexivity|].
  now rewrite length_app, Hc, IHcs.
Qed.

Lemma length_subtree (a : DataTree) : length (subtree a) = size (dt_node a).
Proof. apply length_preorder. Qed.

Definition level_size (level : list DataTree) : nat :=
  list_sum (map (fun a => size (dt_node a)) level).

Lemma level_size_next (level : list DataTree) :
  level_size level = length level + level_size (flat_map children level).
Proof.
  unfold level_size. induction level as [|a level IH]; simpl; [reflexivity|].
  rewrite map_app, list_sum_app, IH.
  assert (H : size (dt_node a)
              = S (list_sum (map (fun c => size (dt_node c)) (children a)))).
  { unfold children. rewrite map_map. simpl. now destruct (dt_node a). }
  rewrite H. lia.
Qed.

(** The level-order loop yields every node of the level and below. *)
Lemma length_level_order_loop (f : nat) :
  forall level : list DataTree,
    level_height level <= f ->
    length (level_order_loop f level) = level_size level.
Proof.
  induction f as [|f IH]; intros level Hf.
  - destruct level as [|a level]; [reflexivity|].
    pose proof (level_height_pos a level). lia.
  - destruct level as [|a level]; [reflexivity|].
    cbn [level_order_loop]. rewrite length_app, IH
      by now apply level_height_next.
    now rewrite (level_size_next (a :: level)).
Qed.

Lemma length_LevelOrderIter (a : DataTree) :
  length (LevelOrderIter a) = size (dt_node a).
Proof.
  unfold LevelOrderIter. rewrite length_level_order_loop.
  - unfold level_size. simpl. lia.
  - unfold level_height. simpl. lia.
Qed.

Lemma skeleton_same_size (rne : bool) (a b : DataTree) :
  skeleton rne (dt_node a) = skeleton rne (dt_node b) ->
  size (dt_node a) = size (dt_node b).
Proof.
  intros H. rewrite <- (size_skeleton rne (dt_node a)), H.
  apply size_skeleton.
Qed.

Lemma skeleton_names_dropped (t u : tree) :
  skeleton true t = skeleton true u -> skeleton false t = skeleton false u.
Proof.
  revert u; induction t as [n d cs IH] using tree_rect'.
  intros [n' d' cs'] [= _ H]. simpl. f_equal.
  revert cs' H; induction IH as [|c cs Hc _ IHcs]; intros [|c' cs'] H;
    simpl in *; try reflexivity; try discriminate.
  injection H as Hcc Hrest. f_equal; [now apply Hc | now apply IHcs].
Qed.

(** What a non-empty diff reports: a child-count mismatch at a paired
    position or, when names are compared, a name mismatch at one. *)
Lemma diff_loop_reported (rne : bool) (pairs : list (DataTree * DataTree)) :
  diff_loop rne pairs <> EmptyString ->
  exists x y,
    In (x, y) pairs
    /\ ((length (children x) <> length (children y)
         /\ diff_loop rne pairs = children_diff x y)
        \/ (rne = true /\ name x <> name y
            /\ diff_loop rne pairs = name_diff x y)).
Proof.
  induction pairs as [|[a b] pairs IH]; simpl; [congruence|].
  unfold diff_at.
  destruct rne; simpl.
  - destruct (String.eqb_spec (name a) (name b)) as [Hn|Hn]; simpl.
    + destruct (Nat.eqb_spec (length (children a)) (length (children b)))
        as [Hc|Hc]; simpl.
      * intros H. destruct (IH H) as (x & y & Hin & Hxy).
        exists x, y. split; [now right | exact Hxy].
      * intros _. exists a, b. split; [now left | left; now split].
    + intros _. exists a, b. split; [now left | right; now repeat split].
  - destruct (Nat.eqb_spec (length (children a)) (length (children b)))
      as [Hc|Hc]; simpl.
    + intros H. destruct (IH H) as (x & y & Hin & Hxy).
      exists x, y. split; [now right | exact Hxy].
    + intros _. exists a, b. split; [now left | left; now split].
Qed.

Lemma check_isomorphic_ok (a b : DataTree) (rne cfr : bool) :
  check_isomorphic (ATree a) (ATree b) rne cfr = ret tt <->
  skeleton rne (dt_node (if cfr then root a else a))
  = skeleton rne (dt_node (if cfr then root b else b)).
Proof.
  unfold check_isomorphic. rewrite <- diff_empty_skeleton.
  destruct (String.eqb_spec
              (diff_treestructure (if cfr then root a else a)
                 (if cfr then root b else b) rne) EmptyString) as [H|H].
  - split; [intros _; exact H | reflexivity].
  - split; [discriminate | intros H'; now elim H].
Qed.

Lemma check_others_ok (first_tree : DataTree) (other_trees : list DataTree) :
  check_others first_tree other_trees = ret tt <->
  Forall (fun t => skeleton false (dt_node first_tree)
                   = skeleton false (dt_node t)) other_trees.
Proof.
  induction other_trees as [|t rest IH]; cbn [check_others].
  - split; [constructor | reflexivity].
  - destruct (check_isomorphic (ATree first_tree) (ATree t) false false)
      as [e|[]] eqn:Hc; cbn [bind].
    + split; [unfold ret; discriminate|].
      intros H. inversion H as [|? ? Ht _]; subst.
      apply (check_isomorphic_ok first_tree t false false) in Ht.
      unfold ret in Ht. congruence.
    + rewrite IH. split.
      * intros H. constructor; [|exact H].
        now apply (check_isomorphic_ok first_tree t false false).
      * intros H. now inversion H.
Qed.

(** ** Facts on dictionaries *)

Section DictFacts.

Context {K V : Type} `{KeyEq K}.

Lemma keqb_refl (k : K) : keqb k k = true.
Proof. destruct (keqb_spec k k); congruence. Qed.

Lemma keqb_neq (k k' : K) : k <> k' -> keqb k k' = false.
Proof. destruct (keqb_spec k k'); congruence. Qed.

Lemma dict_get_Some_In (k : K) (d : dict K V) (v : V) :
  dict_get k d = Some v -> In (k, v) d.
Proof.
  induction d as [|[k' v'] d IH]; simpl; [discriminate|].
  destruct (keqb_spec k k') as [->|Hk].
  - intros [= ->]. now left.
  - intros Hg. right. now apply IH.
Qed.

Lemma dict_get_In_keys (k : K) (d : dict K V) :
  In k (dict_keys d) <-> exists v, dict_get k d = Some v.
Proof.
  induction d as [|[k' v'] d IH]; simpl.
  - split; [tauto | intros [v Hv]; discriminate].
  - destruct (keqb_spec k k') as [->|Hk].
    + split; [intros _; now exists v' | intros _; now left].
    + rewrite <- IH. split; [intros [Heq|Hin]; congruence | tauto].
Qed.

Lemma dict_get_NoDup (k : K) (v : V) (d : dict K V) :
  NoDup (dict_keys d) -> In (k, v) d -> dict_get k d = Some v.
Proof.
  induction d as [|[k' v'] d IH]; simpl; [tauto|].
  intros Hnd Hin. inversion Hnd as [|? ? Hk' Hnd']; subst.
  destruct Hin as [[= -> ->]|Hin].
  - now rewrite keqb_refl.
  - rewrite keqb_neq; [now apply IH|].
    intros ->. apply Hk'. apply (in_map fst) in Hin. exact Hin.
Qed.

Lemma dict_get_set_same (k : K) (v : V) (d : dict K V) :
  dict_get k (dict_set k v d) = Some v.
Proof.
  induction d as [|[k' v'] d IH]; simpl.
  - now rewrite keqb_refl.
  - destruct (keqb_spec k k') as [->|Hk]; simpl.
    + now rewrite keqb_refl.
    + now rewrite keqb_neq.
Qed.

Lemma dict_get_set_other (k k' : K) (v : V) (d : dict K V) :
  k <> k' -> dict_get k' (dict_set k v d) = dict_get k' d.
Proof.
  intros Hk. induction d as [|[k0 v0] d IH]; simpl.
  - now rewrite keqb_neq by congruence.
  - destruct (keqb_spec k k0) as [->|Hk0]; simpl.
    + now rewrite keqb_neq by congruence.
    + now rewrite IH.
Qed.

Lemma dict_set_present (k : K) (v : V) (d : dict K V) :
  In k (dict_keys d) -> dict_keys (dict_set k v d) = dict_keys d.
Proof.
  induction d as [|[k' v'] d IH]; simpl; [tauto|].
  destruct (keqb_spec k k') as [->|Hk]; simpl; [reflexivity|].
  intros [Heq|Hin]; [congruence|]. now rewrite IH.
Qed.

Lemma dict_set_fresh (k : K) (v : V) (d : dict K V) :
  ~ In k (dict_keys d) -> dict_set k v d = d ++ [(k, v)].
Proof.
  induction d as [|[k' v'] d IH]; simpl; [reflexivity|].
  intros Hin. rewrite keqb_neq by intuition congruence.
  rewrite IH by tauto. reflexivity.
Qed.

Lemma dict_set_keys_In (k k' : K) (v : V) (d : dict K V) :
  In k' (dict_keys (dict_set k v d)) <-> k' = k \/ In k' (dict_keys d).
Proof.
  induction d as [|[k0 v0] d IH]; simpl.
  - intuition congruence.
  - destruct (keqb_spec k k0) as [->|Hk]; simpl.
    + intuition congruence.
    + rewrite IH. intuition congruence.
Qed.

Lemma dict_set_keys_NoDup (k : K) (v : V) (d : dict K V) :
  NoDup (dict_keys d) -> NoDup (dict_keys (dict_set k v d)).
Proof.
  induction d as [|[k' v'] d IH]; simpl; intros Hnd.
  - constructor; [tauto | constructor].
  - inversion Hnd as [|? ? Hk' Hnd']; subst.
    destruct (keqb_spec k k') as [->|Hk]; simpl.
    + now constructor.
    + constructor; [|now apply IH].
      rewrite dict_set_keys_In. intros [Heq|Hin]; [congruence | tauto].
Qed.

Lemma dict_set_head (k k0 : K) (v v0 : V) (d : dict K V) :
  hd_error (dict_keys (dict_set k v ((k0, v0) :: d))) = Some k0.
Proof. simpl. now destruct (keqb k k0). Qed.

(** The assignments of a loop, one after the other. *)
Definition assign_all (pairs : list (K * V)) (d : dict K V) : dict K V :=
  fold_left (fun d kv => dict_set (fst kv) (snd kv) d) pairs d.

Lemma assign_all_keys_In (pairs : list (K * V)) :
  forall (d : dict K V) (k : K),
    In k (dict_keys (assign_all pairs d)) <->
    In k (dict_keys d) \/ In k (map fst pairs).
Proof.
  induction pairs as [|[k0 v0] pairs IH]; intros d k; simpl.
  - tauto.
  - unfold assign_all in *. simpl. rewrite IH, dict_set_keys_In.
    intuition congruence.
Qed.

Lemma assign_all_keys_NoDup (pairs : list (K * V)) :
  forall d : dict K V,
    NoDup (dict_keys d) -> NoDup (dict_keys (assign_all pairs d)).
Proof.
  induction pairs as [|[k0 v0] pairs IH]; intros d Hd; simpl; [exact Hd|].
  apply IH. now apply dict_set_keys_NoDup.
Qed.

Lemma assign_all_fresh (pairs : list (K * V)) :
  forall d : dict K V,
    NoDup (dict_keys d ++ map fst pairs) -> assign_all pairs d = d ++ pairs.
Proof.
  induction pairs as [|[k0 v0] pairs IH]; intros d Hnd; simpl.
  - now rewrite app_nil_r.
  - unfold assign_all in *. simpl.
    assert (Hk0 : ~ In k0 (dict_keys d)).
    { apply NoDup_remove_2 in Hnd. intros Hin. apply Hnd.
      apply in_or_app. now left. }
    rewrite dict_set_fresh by exact Hk0.
    rewrite IH.
    + now rewrite <- app_assoc.
    + unfold dict_keys in *. rewrite map_app, <- app_assoc. exact Hnd.
Qed.

Lemma assign_all_head (pairs : list (K * V)) :
  forall (k0 : K) (v0 : V) (d : dict K V),
    hd_error (dict_keys (assign_all pairs ((k0, v0) :: d))) = Some k0.
Proof.
  induction pairs as [|[k v] pairs IH]; intros k0 v0 d; [reflexivity|].
  unfold assign_all in *. cbn [fold_left fst snd dict_set].
  destruct (keqb k k0); apply IH.
Qed.

Lemma dict_of_pairs_assign (pairs : list (K * V)) :
  dict_of_pairs pairs = assign_all pairs [].
Proof. reflexivity. Qed.

Lemma dict_of_pairs_keys_NoDup (pairs : list (K * V)) :
  NoDup (dict_keys (dict_of_pairs pairs)).
Proof. apply assign_all_keys_NoDup. constructor. Qed.

Lemma dict_of_pairs_keys_In (pairs : list (K * V)) (k : K) :
  In k (dict_keys (dict_of_pairs pairs)) <-> In k (map fst pairs).
Proof.
  rewrite dict_of_pairs_assign, assign_all_keys_In. simpl. tauto.
Qed.

Lemma dict_of_pairs_NoDup (pairs : list (K * V)) :
  NoDup (map fst pairs) -> dict_of_pairs pairs = pairs.
Proof. intros Hnd. now apply (assign_all_fresh pairs []). Qed.

End DictFacts.

(** ** The walk *)

Lemma fold_left_map_arg {A B C : Type} (f : A -> C -> A) (g : B -> C)
  (l : list B) :
  forall a : A, fold_left (fun a x => f a (g x)) l a = fold_left f (map g l) a.
Proof. induction l as [|x l IH]; intros a; simpl; [reflexivity | apply IH]. Qed.

Lemma walk_assign (first_tree : DataTree) (args : list pyarg)
  (kwargs : dict string pyarg) :
  walk first_tree args kwargs
  = dict_of_pairs
      (map (fun step => (path (fst step), call_at args kwargs step))
         (steps first_tree args kwargs)).
Proof.
  unfold walk, steps, call_at, dict_of_pairs, dict_keys, dict_values.
  rewrite <- fold_left_map_arg. cbn [fst snd].
  rewrite !map_map, length_map, map_app, map_map. cbn [fst snd].
  reflexivity.
Qed.

Lemma walk_keys_NoDup (first_tree : DataTree) (args : list pyarg)
  (kwargs : dict string pyarg) :
  NoDup (dict_keys (walk first_tree args kwargs)).
Proof. rewrite walk_assign. apply dict_of_pairs_keys_NoDup. Qed.

(** An argument iterable is as long as the traversal of the first tree. *)
Definition long_as (k : nat) (it : iterable) : Prop :=
  match it with
  | ISubtree nodes => length nodes = k
  | IRepeat _ => True
  end.

Lemma next_items_long (k : nat) (its : list iterable) :
  Forall (long_as (S k)) its ->
  exists items its',
    next_items its = Some (items, its') /\ Forall (long_as k) its'.
Proof.
  induction its as [|it its IH]; intros H.
  - exists [], []. split; [reflexivity | constructor].
  - inversion H as [|? ? Hit Hits]; subst.
    destruct (IH Hits) as (items & its' & Hnext & Hlong).
    destruct it as [[|n nodes]|v]; simpl in *; try discriminate.
    + rewrite Hnext. eexists _, _. split; [reflexivity|].
      constructor; [simpl; lia | exact Hlong].
    + rewrite Hnext. eexists _, _. split; [reflexivity|].
      constructor; [exact I | exact Hlong].
Qed.

Lemma zip_nodes_complete (first : list DataTree) :
  forall its : list iterable,
    Forall (long_as (length first)) its ->
    map fst (zip_nodes first its) = first.
Proof.
  induction first as [|n first IH]; intros its H; simpl; [reflexivity|].
  destruct (next_items_long _ _ H) as (items & its' & -> & Hlong).
  simpl. f_equal. now apply IH.
Qed.

Lemma tree_inputs_app (l1 l2 : list pyarg) :
  tree_inputs (l1 ++ l2) = tree_inputs l1 ++ tree_inputs l2.
Proof.
  induction l1 as [|[t|v] l1 IH]; simpl; [reflexivity | | exact IH].
  now rewrite IH.
Qed.

Lemma iterables_long (k : nat) (l : list pyarg) :
  Forall (fun t => length (subtree t) = k) (tree_inputs l) ->
  Forall (long_as k) (map as_tree_length_iterable l).
Proof.
  induction l as [|[t|v] l IH]; simpl; intros H.
  - constructor.
  - inversion H as [|? ? Ht Hl]. constructor; [exact Ht | now apply IH].
  - constructor; [exact I | now apply IH].
Qed.

(** After the isomorphism checks no argument stops the walk short: every
    node of the first tree is reached, in traversal order. *)
Lemma steps_complete (args : list pyarg) (kwargs : dict string pyarg)
  (first_tree : DataTree) :
  reaches_walk args kwargs first_tree ->
  map fst (steps first_tree args kwargs) = subtree first_tree.
Proof.
  intros (others & Hin & Hchk). unfold steps.
  apply zip_nodes_complete, iterables_long.
  rewrite tree_inputs_app, Hin.
  apply check_others_ok in Hchk.
  constructor; [reflexivity|].
  rewrite Forall_forall in *. intros t Ht.
  rewrite !length_subtree. symmetry.
  now apply (skeleton_same_size false), Hchk.
Qed.

(** ** Resolving the deferred calls *)

Lemma combine_fst_snd {A B C : Type} (f : B -> C) (l : list (A * B)) :
  combine (map fst l) (map f (map snd l)) = map (fun kv => (fst kv, f (snd kv))) l.
Proof.
  induction l as [|[k v] l IH]; simpl; [reflexivity | now rewrite IH].
Qed.

Lemma compute_resolved (func : user_function)
  (d : dict NodePath (option call)) :
  NoDup (dict_keys d) ->
  snd (compute func d) = map (fun kv => (fst kv, resolve func (snd kv))) d.
Proof.
  intros Hnd. unfold compute, dict_keys, dict_values. cbn [snd].
  rewrite combine_fst_snd. apply dict_of_pairs_NoDup.
  rewrite map_map. cbn [fst]. exact Hnd.
Qed.

Lemma returned_objects_resolved (func : user_function) (first_tree : DataTree)
  (args : list pyarg) (kwargs : dict string pyarg) :
  returned_objects func first_tree args kwargs
  = map (fun kv => (fst kv, resolve func (snd kv)))
      (walk first_tree args kwargs).
Proof. apply compute_resolved, walk_keys_NoDup. Qed.

Lemma returned_objects_keys (func : user_function) (first_tree : DataTree)
  (args : list pyarg) (kwargs : dict string pyarg) :
  dict_keys (returned_objects func first_tree args kwargs)
  = dict_keys (walk first_tree args kwargs).
Proof.
  rewrite returned_objects_resolved. unfold dict_keys.
  rewrite map_map. reflexivity.
Qed.

Lemma walk_keys_In (first_tree : DataTree) (args : list pyarg)
  (kwargs : dict string pyarg) (p : NodePath) :
  In p (dict_keys (walk first_tree args kwargs)) <->
  In p (map path (map fst (steps first_tree args kwargs))).
Proof.
  rewrite walk_assign, dict_of_pairs_keys_In, !map_map. reflexivity.
Qed.

(** The mapped function, once the call has reached the walk. *)
Lemma map_over_subtree_reached (func : user_function) (args : list pyarg)
  (kwargs : dict string pyarg) (first_tree : DataTree) :
  reaches_walk args kwargs first_tree ->
  _map_over_subtree func args kwargs
  = (calls_made (walk first_tree args kwargs),
     bind (_check_all_return_values
             (returned_objects func first_tree args kwargs))
       (fun num_return_values =>
          match num_return_values with
          | None =>
              raise (TypeError
                       "'NoneType' object cannot be interpreted as an integer")
          | Some k =>
              bind (result_trees first_tree
                      (returned_objects func first_tree args kwargs)
                      (seq 0 k))
                (fun trees =>
                   match trees with
                   | [t] => ret (OneTree t)
                   | _ => ret (TreeTuple trees)
                   end)
          end)).
Proof.
  intros (others & Hin & Hchk).
  unfold _map_over_subtree, returned_objects. rewrite Hin, Hchk.
  unfold compute. reflexivity.
Qed.

(** ** The return-value validator *)

Lemma check_tuple_items_data (p : NodePath) (items : list pyval) :
  forallb is_data items = true -> check_tuple_items p items = ret tt.
Proof.
  induction items as [|[|d|l|c] items IH]; simpl; try discriminate;
    [reflexivity | exact IH].
Qed.

Lemma check_single_arity (p : NodePath) (v : pyval) (k : nat) :
  arity v = Some k -> _check_single_set_return_values p v = ret k.
Proof.
  destruct v as [|d|items|c]; simpl; try discriminate.
  - now intros [= <-].
  - destruct (forallb is_data items) eqn:Hd; [|discriminate].
    intros [= <-]. now rewrite check_tuple_items_data.
Qed.

Lemma check_rest_uniform (k : nat) (rest : list (NodePath * pyval)) :
  Forall (fun pr => arity (snd pr) = Some k) rest ->
  forall (prev_path : NodePath) (prev num : option nat),
    prev = None \/ prev = Some k ->
    check_rest rest prev_path prev num
    = ret (match rest with [] => num | _ => Some k end).
Proof.
  induction 1 as [|[p v] rest Hv _ IH]; intros prev_path prev num Hprev;
    [reflexivity|].
  cbn [check_rest]. simpl in Hv. rewrite (check_single_arity p v k Hv).
  cbn [bind ret].
  assert (Hgo : check_rest rest p (Some k) (Some k) = ret (Some k)).
  { rewrite IH by now right. now destruct rest. }
  destruct Hprev as [->| ->]; [exact Hgo|].
  now rewrite Nat.eqb_refl.
Qed.

Lemma forallb_false_exists {A : Type} (f : A -> bool) (l : list A) :
  forallb f l = false -> exists x, In x l /\ f x = false.
Proof.
  induction l as [|x l IH]; simpl; [discriminate|].
  destruct (f x) eqn:Hx; simpl.
  - intros H. destruct (IH H) as (y & Hy & Hfy). exists y. tauto.
  - intros _. exists x. tauto.
Qed.

Lemma all_none_raises (d : dict NodePath pyval) :
  (forall p v, In (p, v) d -> v = PNone) ->
  _check_all_return_values d = raise (TypeError all_none_message).
Proof.
  intros H. unfold _check_all_return_values.
  assert (Hall : forallb is_None (dict_values d) = true).
  { apply forallb_forall. intros v Hv.
    apply in_map_iff in Hv as ([p v'] & <- & Hin).
    now rewrite (H p v' Hin). }
  now rewrite Hall.
Qed.

Lemma check_all_ok_not_all_none (d : dict NodePath pyval) (k : option nat) :
  _check_all_return_values d = ret k ->
  exists p v, In (p, v) d /\ v <> PNone.
Proof.
  unfold _check_all_return_values.
  destruct (forallb is_None (dict_values d)) eqn:Hall; [discriminate|].
  intros _. apply forallb_false_exists in Hall as (v & Hv & Hnone).
  apply in_map_iff in Hv as ([p v'] & <- & Hin).
  exists p, v'. split; [exact Hin|]. simpl in Hnone. now intros ->.
Qed.

(** Results of one valid arity [k] at every node that has one. *)
Lemma check_all_uniform (k : nat) (d : dict NodePath pyval) :
  (forall p v, In (p, v) d -> v = PNone \/ arity v = Some k) ->
  (exists p v, In (p, v) d /\ v <> PNone) ->
  _check_all_return_values d = ret (Some k).
Proof.
  intros Hall (p0 & v0 & Hin0 & Hv0). unfold _check_all_return_values.
  assert (Hnot : forallb is_None (dict_values d) = false).
  { destruct (forallb is_None (dict_values d)) eqn:E; [|reflexivity].
    rewrite forallb_forall in E.
    specialize (E v0 (in_map snd _ _ Hin0)). now destruct v0. }
  rewrite Hnot.
  set (rdo := filter (fun pr => negb (is_None (snd pr))) d).
  assert (Hrdo : Forall (fun pr => arity (snd pr) = Some k) rdo).
  { apply Forall_forall. intros [p v] Hpv.
    apply filter_In in Hpv as [Hin Hv]. simpl in *.
    destruct (Hall p v Hin) as [->|Ha]; [discriminate | exact Ha]. }
  assert (Hne : In (p0, v0) rdo).
  { apply filter_In. split; [exact Hin0|]. now destruct v0. }
  destruct rdo as [|[p r] [|x rest]]; [destruct Hne | |].
  - inversion Hrdo as [|? ? Hr _]; subst. simpl in Hr.
    rewrite (check_single_arity p r k Hr). reflexivity.
  - inversion Hrdo as [|? ? _ Hrest]; subst.
    rewrite (check_rest_uniform k (x :: rest) Hrest); [reflexivity|].
    now left.
Qed.

(** A mismatch between two results that both follow the first one is
    reported, with both paths and both arities. *)
Lemma check_all_later_mismatch (p0 p1 p2 : NodePath) (r0 r1 r2 : pyval)
  (n1 n2 : nat) :
  r0 <> PNone -> arity r1 = Some n1 -> arity r2 = Some n2 -> n1 <> n2 ->
  _check_all_return_values [(p0, r0); (p1, r1); (p2, r2)]
  = raise (TypeError (inconsistent_message p2 n2 p1 n1)).
Proof.
  intros H0 H1 H2 Hn. unfold _check_all_return_values.
  assert (E1 : is_None r1 = false) by (destruct r1; simpl in *; congruence).
  assert (E2 : is_None r2 = false) by (destruct r2; simpl in *; congruence).
  assert (E0 : is_None r0 = false) by (destruct r0; simpl in *; congruence).
  cbn [dict_values map snd forallb filter]. rewrite E0, E1, E2. cbn.
  rewrite (check_single_arity p1 r1 n1 H1). cbn.
  rewrite (check_single_arity p2 r2 n2 H2). cbn.
  apply Nat.eqb_neq in Hn. rewrite Nat.eqb_sym in Hn. now rewrite Hn.
Qed.

(** ** Paths below the first tree *)

Lemma preorder_paths (t : tree) :
  forall (r r' : tree) (p q : NodePath),
    map path (preorder r (p ++ q) t)
    = map (app p) (map path (preorder r' q t)).
Proof.
  induction t as [n d cs IH] using tree_rect'. intros r r' p q.
  cbn [preorder map path dt_path]. f_equal.
  induction IH as [|c cs Hc _ IHcs]; [reflexivity|].
  cbn [flat_map]. rewrite !map_app, IHcs. f_equal.
  rewrite <- app_assoc. apply Hc.
Qed.

Lemma subtree_paths (a : DataTree) :
  map path (subtree a) = map (app (path a)) (relative_paths (dt_node a)).
Proof.
  unfold subtree, relative_paths, path.
  rewrite <- (app_nil_r (dt_path a)) at 1. apply preorder_paths.
Qed.

Lemma relative_to_app (p rel : NodePath) : relative_to (p ++ rel) p = Some rel.
Proof.
  induction p as [|x p IH]; simpl; [reflexivity|].
  now rewrite String.eqb_refl.
Qed.

Lemma subtree_relative (a n : DataTree) :
  In n (subtree a) ->
  exists rel,
    In rel (relative_paths (dt_node a))
    /\ path n = path a ++ rel
    /\ output_key a n = Some (normalize_relative rel).
Proof.
  intros Hn. apply (in_map path) in Hn. rewrite subtree_paths in Hn.
  apply in_map_iff in Hn as (rel & Hrel & Hin).
  exists rel. split; [exact Hin|]. split; [now symmetry|].
  unfold output_key. now rewrite <- Hrel, relative_to_app.
Qed.

Lemma subtree_head (a : DataTree) :
  exists rest, subtree a = a :: rest.
Proof.
  unfold subtree. destruct a as [r p [n d cs]]. simpl. eexists. reflexivity.
Qed.

Lemma output_key_self (a : DataTree) : output_key a a = Some "/".
Proof.
  unfold output_key. rewrite <- (app_nil_r (path a)) at 1.
  now rewrite relative_to_app.
Qed.

Lemma output_keys_Some (a : DataTree) (nodes : list DataTree) :
  (forall n, In n nodes -> In n (subtree a)) ->
  map (output_key a) nodes = map Some (map (key_of a) nodes).
Proof.
  intros H. rewrite map_map. apply map_ext_in. intros n Hn.
  destruct (subtree_relative a n (H n Hn)) as (rel & _ & _ & Hk).
  unfold key_of. now rewrite Hk.
Qed.

Lemma paths_unique_keys (a : DataTree) :
  paths_unique a -> NoDup (map (key_of a) (subtree a)).
Proof.
  unfold paths_unique. rewrite (output_keys_Some a) by auto.
  apply NoDup_map_inv.
Qed.

Lemma paths_unique_paths (a : DataTree) :
  paths_unique a -> NoDup (map path (subtree a)).
Proof.
  unfold paths_unique, output_key.
  rewrite <- (map_map path
                (fun p => option_map normalize_relative
                            (relative_to p (path a)))).
  apply NoDup_map_inv.
Qed.

Lemma key_of_subtree (a : DataTree) :
  map (key_of a) (subtree a)
  = map normalize_relative (relative_paths (dt_node a)).
Proof.
  assert (H : forall n, key_of a n
                        = match option_map normalize_relative
                                  (relative_to (path n) (path a)) with
                          | Some key => key
                          | None => EmptyString
                          end) by reflexivity.
  rewrite (map_ext _ _ H).
  rewrite <- (map_map path
                (fun p => match option_map normalize_relative
                                  (relative_to p (path a)) with
                          | Some key => key
                          | None => EmptyString
                          end)).
  rewrite subtree_paths, map_map. apply map_ext. intros rel.
  now rewrite relative_to_app.
Qed.

(** ** Well-named trees have unique paths *)

Lemma append_empty_r (s : string) : s +++ EmptyString = s.
Proof. induction s as [|c s IH]; simpl; [reflexivity | now rewrite IH]. Qed.

(** A text that is empty or begins with a slash: what follows a name in a
    joined path. *)
Definition after_name (s : string) : Prop :=
  s = EmptyString \/ exists s', s = String "/" s'.

Lemma name_split (x x' s s' : string) :
  slash_free x = true -> slash_free x' = true ->
  after_name s -> after_name s' ->
  x +++ s = x' +++ s' -> x = x' /\ s = s'.
Proof.
  revert x'; induction x as [|c x IH]; intros [|c' x'] Hx Hx' Hs Hs' Heq;
    simpl in *.
  - now split.
  - apply andb_prop in Hx' as [Hc' _]. apply negb_true_iff in Hc'.
    apply Ascii.eqb_neq in Hc'.
    destruct Hs as [->|[t ->]]; [discriminate|].
    injection Heq as Hc _. congruence.
  - apply andb_prop in Hx as [Hc _]. apply negb_true_iff in Hc.
    apply Ascii.eqb_neq in Hc.
    destruct Hs' as [->|[t ->]]; [discriminate|].
    injection Heq as Hc' _. congruence.
  - apply andb_prop in Hx as [_ Hx]. apply andb_prop in Hx' as [_ Hx'].
    injection Heq as -> Heq.
    destruct (IH x' Hx Hx' Hs Hs' Heq) as [-> ->]. now split.
Qed.

Lemma name_ok_parts (s : string) :
  name_ok s = true ->
  s <> EmptyString /\ s <> "." /\ slash_free s = true.
Proof.
  unfold name_ok. intros H.
  apply andb_prop in H as [H Hs]. apply andb_prop in H as [He Hd].
  apply negb_true_iff in He, Hd.
  apply String.eqb_neq in He, Hd. tauto.
Qed.

Lemma join_parts_cons (x : string) (r : list string) :
  exists s, join_parts (x :: r) = x +++ s /\ after_name s
            /\ (r = [] -> s = EmptyString)
            /\ (r <> [] -> s = String "/" (join_parts r)).
Proof.
  destruct r as [|y r].
  - exists EmptyString. simpl. rewrite append_empty_r.
    repeat split; [now left | congruence].
  - exists (String "/" (join_parts (y :: r))).
    repeat split; [right; now eexists | discriminate].
Qed.

Lemma join_parts_injective (r : list string) :
  forall r' : list string,
    Forall (fun x => name_ok x = true) r ->
    Forall (fun x => name_ok x = true) r' ->
    r <> [] -> r' <> [] ->
    join_parts r = join_parts r' -> r = r'.
Proof.
  induction r as [|x r IH]; intros [|x' r'] Hr Hr' Hne Hne' Heq;
    try congruence.
  inversion Hr as [|? ? Hx Hrest]; subst.
  inversion Hr' as [|? ? Hx' Hrest']; subst.
  apply name_ok_parts in Hx as (_ & _ & Hx).
  apply name_ok_parts in Hx' as (_ & _ & Hx').
  destruct (join_parts_cons x r) as (s & Hs & Ha & Hnil & Hcons).
  destruct (join_parts_cons x' r') as (s' & Hs' & Ha' & Hnil' & Hcons').
  rewrite Hs, Hs' in Heq.
  destruct (name_split x x' s s' Hx Hx' Ha Ha' Heq) as [-> Hss].
  f_equal.
  destruct r as [|y r]; destruct r' as [|y' r']; try reflexivity.
  - rewrite (Hnil eq_refl), Hcons' in Hss by discriminate. discriminate.
  - rewrite (Hnil' eq_refl), Hcons in Hss by discriminate. discriminate.
  - rewrite Hcons, Hcons' in Hss by discriminate. injection Hss as Hss.
    apply IH; try assumption; discriminate.
Qed.

Lemma normalize_relative_nonempty (x : string) (r : list string) :
  Forall (fun x => name_ok x = true) (x :: r) ->
  normalize_relative (x :: r) = join_parts (x :: r)
  /\ join_parts (x :: r) <> "/".
Proof.
  intros H. inversion H as [|? ? Hx _]; subst.
  apply name_ok_parts in Hx as (Hne & Hdot & Hsf).
  destruct (join_parts_cons x r) as (s & Hs & Ha & Hnil & Hcons).
  assert (Hjoin : join_parts (x :: r) <> "." /\ join_parts (x :: r) <> "/").
  { rewrite Hs. destruct x as [|c x]; [congruence|].
    simpl in Hsf. apply andb_prop in Hsf as [Hc _].
    apply negb_true_iff, Ascii.eqb_neq in Hc.
    split; [|simpl; congruence].
    destruct r as [|y r].
    - rewrite (Hnil eq_refl), append_empty_r. exact Hdot.
    - rewrite Hcons by discriminate. simpl. destruct x; simpl; congruence. }
  split; [|tauto].
  unfold normalize_relative. cbn [relative_str].
  destruct (String.eqb_spec (join_parts (x :: r)) ".") as [E|E];
    [now elim (proj1 Hjoin) | reflexivity].
Qed.

Lemma normalize_relative_injective (r r' : list string) :
  Forall (fun x => name_ok x = true) r ->
  Forall (fun x => name_ok x = true) r' ->
  normalize_relative r = normalize_relative r' -> r = r'.
Proof.
  intros Hr Hr'. destruct r as [|x r]; destruct r' as [|x' r'].
  - reflexivity.
  - destruct (normalize_relative_nonempty x' r' Hr') as [-> Hne].
    intros H. now elim Hne.
  - destruct (normalize_relative_nonempty x r Hr) as [-> Hne].
    intros H. now elim Hne.
  - destruct (normalize_relative_nonempty x r Hr) as [-> _].
    destruct (normalize_relative_nonempty x' r' Hr') as [-> _].
    apply join_parts_injective; try assumption; discriminate.
Qed.

Lemma relative_paths_node (n : string) (d : option Payload) (cs : list tree) :
  relative_paths (Node n d cs)
  = [] :: flat_map (fun c => map (cons (t_name c)) (relative_paths c)) cs.
Proof.
  unfold relative_paths. cbn [preorder map path dt_path]. f_equal.
  rewrite flat_map_concat_map, concat_map, map_map, <- flat_map_concat_map.
  apply flat_map_ext. intros c.
  apply (preorder_paths c (Node n d cs) c [t_name c] []).
Qed.

Lemma distinct_NoDup (names : list string) :
  distinct names = true -> NoDup names.
Proof.
  induction names as [|x names IH]; simpl; [constructor|].
  intros H. apply andb_prop in H as [Hx Hrest]. constructor; [|now apply IH].
  intros Hin. apply negb_true_iff in Hx.
  assert (existsb (String.eqb x) names = true)
    by (apply existsb_exists; exists x; split;
        [exact Hin | apply String.eqb_refl]).
  congruence.
Qed.

Lemma well_named_paths (t : tree) :
  well_named t = true ->
  Forall (Forall (fun x => name_ok x = true)) (relative_paths t)
  /\ NoDup (relative_paths t).
Proof.
  induction t as [n d cs IH] using tree_rect'. cbn [well_named].
  intros H. apply andb_prop in H as [H Hwn]. apply andb_prop in H as [Hok Hd].
  rewrite relative_paths_node.
  apply distinct_NoDup in Hd.
  rewrite forallb_forall in Hok, Hwn. rewrite Forall_forall in IH.
  split.
  - constructor; [constructor|]. apply Forall_forall. intros rel Hrel.
    apply in_flat_map in Hrel as (c & Hc & Hrel).
    apply in_map_iff in Hrel as (rel' & <- & Hrel').
    constructor; [now apply Hok|].
    destruct (IH c Hc (Hwn c Hc)) as [Hall _].
    rewrite Forall_forall in Hall. now apply Hall.
  - constructor.
    + intros Hin. apply in_flat_map in Hin as (c & _ & Hin).
      apply in_map_iff in Hin as (rel & Hrel & _). discriminate.
    + assert (Hgen : forall l,
                 (forall c, In c l -> In c cs) ->
                 NoDup (map t_name l) ->
                 NoDup (flat_map
                          (fun c => map (cons (t_name c)) (relative_paths c))
                          l)).
      { induction l as [|c l IHl]; intros Hsub Hdl; [constructor|].
        cbn [flat_map map] in *. inversion Hdl as [|? ? Hc Hdl']; subst.
        apply NoDup_app.
        - apply NoDup_map_NoDup_ForallPairs.
          + intros r r' _ _ Heq. now injection Heq.
          + apply (IH c); [|apply Hwn]; apply Hsub; now left.
        - apply IHl; [intros c' Hc'; apply Hsub; now right | exact Hdl'].
        - intros rel Hrel Hrel'.
          apply in_map_iff in Hrel as (r1 & <- & _).
          apply in_flat_map in Hrel' as (c' & Hc' & Hrel').
          apply in_map_iff in Hrel' as (r2 & Heq & _).
          injection Heq as Hname _. apply Hc. rewrite <- Hname.
          now apply in_map. }
      apply Hgen; [auto | exact Hd].
Qed.

(** The invariant holds of every tree object whose node is well named,
    whatever lies above the node. *)
Lemma well_named_paths_unique (a : DataTree) :
  well_named (dt_node a) = true -> paths_unique a.
Proof.
  intros Hwn. destruct (well_named_paths _ Hwn) as [Hok Hnd].
  unfold paths_unique. rewrite (output_keys_Some a) by auto.
  apply NoDup_map_NoDup_ForallPairs; [intros x y _ _ [= Hxy]; exact Hxy|].
  rewrite key_of_subtree.
  apply NoDup_map_NoDup_ForallPairs; [|exact Hnd].
  rewrite Forall_forall in Hok.
  intros r r' Hr Hr'. apply normalize_relative_injective; now apply Hok.
Qed.

(** ** Rebuilding the output trees *)

Lemma output_node_data_ret (out : dict NodePath pyval) (n : DataTree)
  (i : nat) (x : pyval) :
  output_node_data out (path n) i = ret x -> x = node_output out i n.
Proof.
  unfold output_node_data, node_output.
  destruct (dict_get (path n) out) as [[|d|items|c]|];
    try (intros [= <-]; reflexivity).
  destruct (nth_error items i) as [y|] eqn:Hy; [|discriminate].
  intros [= <-]. simpl. symmetry. now apply nth_error_nth.
Qed.

Lemma fill_contents_assign (out : dict NodePath pyval) (a : DataTree)
  (i : nat) (nodes : list DataTree) :
  forall acc c : dict string pyval,
    fill_contents out (path a) i nodes acc = ret c ->
    c = assign_all
          (map (fun n => (key_of a n, node_output out i n)) nodes) acc.
Proof.
  induction nodes as [|n nodes IH]; intros acc c; cbn [fill_contents].
  - now intros [= <-].
  - destruct (output_node_data out (path n) i) as [e|x] eqn:Hx;
      [discriminate|].
    apply output_node_data_ret in Hx. cbn [bind].
    destruct (relative_to (path n) (path a)) as [rel|] eqn:Hrel;
      [|discriminate].
    intros Hc. apply IH in Hc. subst x c.
    assert (Hk : key_of a n = normalize_relative rel)
      by (unfold key_of, output_key; now rewrite Hrel).
    cbn [map]. rewrite Hk. reflexivity.
Qed.

Lemma fill_contents_ret (out : dict NodePath pyval) (a : DataTree)
  (i : nat) (nodes : list DataTree) :
  (forall n, In n nodes -> In n (subtree a)) ->
  (forall n, In n nodes ->
             output_node_data out (path n) i = ret (node_output out i n)) ->
  forall acc : dict string pyval,
    fill_contents out (path a) i nodes acc
    = ret (assign_all
             (map (fun n => (key_of a n, node_output out i n)) nodes) acc).
Proof.
  induction nodes as [|n nodes IH]; intros Hsub Hdata acc;
    cbn [fill_contents]; [reflexivity|].
  rewrite (Hdata n) by now left. cbn [bind ret].
  destruct (subtree_relative a n (Hsub n (or_introl eq_refl)))
    as (rel & _ & _ & Hk).
  assert (Hkey : key_of a n = normalize_relative rel)
    by (unfold key_of; now rewrite Hk).
  unfold output_key in Hk.
  destruct (relative_to (path n) (path a)) as [rel'|]; [|discriminate].
  injection Hk as Hk.
  rewrite IH; [|intros m Hm; apply Hsub; now right
               |intros m Hm; apply Hdata; now right].
  cbn [map]. rewrite Hkey, <- Hk. reflexivity.
Qed.

Lemma result_trees_built (a : DataTree) (out : dict NodePath pyval)
  (indices : list nat) :
  forall trees,
    result_trees a out indices = ret trees ->
    Forall2 (fun i t =>
               t = from_dict
                     (assign_all
                        (map (fun n => (key_of a n, node_output out i n))
                           (subtree a)) [])
                     (name a))
      indices trees.
Proof.
  induction indices as [|i indices IH]; intros trees; cbn [result_trees].
  - intros [= <-]. constructor.
  - destruct (fill_contents out (path a) i (subtree a) []) as [e|c] eqn:Hc;
      [discriminate|].
    apply fill_contents_assign in Hc. cbn [bind].
    destruct (result_trees a out indices) as [e|ts]; [discriminate|].
    intros [= <-]. constructor; [now rewrite Hc | now apply IH].
Qed.

Lemma result_trees_ret (a : DataTree) (out : dict NodePath pyval)
  (indices : list nat) :
  (forall i n, In i indices -> In n (subtree a) ->
               output_node_data out (path n) i = ret (node_output out i n)) ->
  result_trees a out indices
  = ret (map (fun i =>
                from_dict
                  (assign_all
                     (map (fun n => (key_of a n, node_output out i n))
                        (subtree a)) [])
                  (name a))
           indices).
Proof.
  induction indices as [|i indices IH]; intros H; cbn [result_trees];
    [reflexivity|].
  rewrite fill_contents_ret; [|auto|intros n Hn; apply H; [now left|exact Hn]].
  cbn [bind ret]. rewrite IH; [reflexivity|].
  intros j n Hj Hn. apply H; [now right | exact Hn].
Qed.

(** ** What the walk records *)

Lemma dict_get_map_values {K V W : Type} `{KeyEq K} (f : V -> W) (k : K)
  (d : dict K V) :
  dict_get k (map (fun kv => (fst kv, f (snd kv))) d)
  = option_map f (dict_get k d).
Proof.
  induction d as [|[k' v] d IH]; simpl; [reflexivity|].
  now destruct (keqb k k').
Qed.


Lemma In_subtree_steps (args : list pyarg) (kwargs : dict string pyarg)
  (first_tree n : DataTree) :
  reaches_walk args kwargs first_tree ->
  In n (subtree first_tree) ->
  exists items, In (n, items) (steps first_tree args kwargs).
Proof.
  intros Hr Hin. rewrite <- (steps_complete args kwargs first_tree Hr) in Hin.
  apply in_map_iff in Hin as ([n' items] & Hn & Hin). simpl in Hn; subst n'.
  now exists items.
Qed.

(** With distinct paths no assignment of the walk overwrites another. *)
Lemma walk_distinct (args : list pyarg) (kwargs : dict string pyarg)
  (first_tree : DataTree) :
  reaches_walk args kwargs first_tree ->
  NoDup (map path (subtree first_tree)) ->
  walk first_tree args kwargs
  = map (fun step => (path (fst step), call_at args kwargs step))
      (steps first_tree args kwargs).
Proof.
  intros Hr Hd. rewrite walk_assign. apply dict_of_pairs_NoDup.
  rewrite map_map. cbn [fst].
  now rewrite <- (map_map fst path), (steps_complete _ _ _ Hr).
Qed.

Lemma walk_records_distinct (args : list pyarg) (kwargs : dict string pyarg)
  (first_tree : DataTree) (step : DataTree * list pyarg) :
  reaches_walk args kwargs first_tree ->
  NoDup (map path (subtree first_tree)) ->
  In step (steps first_tree args kwargs) ->
  dict_get (path (fst step)) (walk first_tree args kwargs)
  = Some (call_at args kwargs step).
Proof.
  intros Hr Hd Hin. apply dict_get_NoDup; [apply walk_keys_NoDup|].
  rewrite (walk_distinct _ _ _ Hr Hd).
  apply (in_map (fun step => (path (fst step), call_at args kwargs step))).
  exact Hin.
Qed.

Lemma returned_objects_records_distinct (func : user_function)
  (args : list pyarg) (kwargs : dict string pyarg) (first_tree : DataTree)
  (step : DataTree * list pyarg) :
  reaches_walk args kwargs first_tree ->
  NoDup (map path (subtree first_tree)) ->
  In step (steps first_tree args kwargs) ->
  dict_get (path (fst step)) (returned_objects func first_tree args kwargs)
  = Some (resolve func (call_at args kwargs step)).
Proof.
  intros Hr Hd Hin.
  rewrite returned_objects_resolved, dict_get_map_values.
  now rewrite (walk_records_distinct _ _ _ _ Hr Hd Hin).
Qed.

Lemma walk_unique (args : list pyarg) (kwargs : dict string pyarg)
  (first_tree : DataTree) :
  reaches_walk args kwargs first_tree ->
  paths_unique first_tree ->
  walk first_tree args kwargs
  = map (fun step => (path (fst step), call_at args kwargs step))
      (steps first_tree args kwargs).
Proof.
  intros Hr Hu. now apply walk_distinct, paths_unique_paths.
Qed.

Lemma walk_records (args : list pyarg) (kwargs : dict string pyarg)
  (first_tree : DataTree) (step : DataTree * list pyarg) :
  reaches_walk args kwargs first_tree ->
  paths_unique first_tree ->
  In step (steps first_tree args kwargs) ->
  dict_get (path (fst step)) (walk first_tree args kwargs)
  = Some (call_at args kwargs step).
Proof.
  intros Hr Hu. now apply walk_records_distinct, paths_unique_paths.
Qed.

Lemma returned_objects_records (func : user_function) (args : list pyarg)
  (kwargs : dict string pyarg) (first_tree : DataTree)
  (step : DataTree * list pyarg) :
  reaches_walk args kwargs first_tree ->
  paths_unique first_tree ->
  In step (steps first_tree args kwargs) ->
  dict_get (path (fst step)) (returned_objects func first_tree args kwargs)
  = Some (resolve func (call_at args kwargs step)).
Proof.
  intros Hr Hu. now apply returned_objects_records_distinct, paths_unique_paths.
Qed.

Lemma returned_objects_entries (func : user_function) (args : list pyarg)
  (kwargs : dict string pyarg) (first_tree : DataTree) (p : NodePath)
  (v : pyval) :
  reaches_walk args kwargs first_tree ->
  paths_unique first_tree ->
  In (p, v) (returned_objects func first_tree args kwargs) <->
  exists step,
    In step (steps first_tree args kwargs)
    /\ p = path (fst step) /\ v = resolve func (call_at args kwargs step).
Proof.
  intros Hr Hu.
  rewrite returned_objects_resolved, (walk_unique _ _ _ Hr Hu), map_map.
  cbn [fst snd]. rewrite in_map_iff. split.
  - intros (step & [= <- <-] & Hin). now exists step.
  - intros (step & Hin & -> & ->). now exists step.
Qed.

Lemma call_at_empty (args : list pyarg) (kwargs : dict string pyarg)
  (n : DataTree) (items : list pyarg) :
  is_empty n = true -> call_at args kwargs (n, items) = None.
Proof. unfold call_at, node_results. cbn [fst snd]. now intros ->. Qed.

Lemma call_at_payload (args : list pyarg) (kwargs : dict string pyarg)
  (n : DataTree) (items : list pyarg) :
  is_empty n = false ->
  call_at args kwargs (n, items)
  = Some (mkCall (map as_dataset (firstn (length args) items))
            (dict_of_pairs
               (combine (dict_keys kwargs)
                  (map as_dataset (skipn (length args) items))))).
Proof. unfold call_at, node_results. cbn [fst snd]. now intros ->. Qed.


Lemma dict_set_In {K V : Type} `{KeyEq K} (k : K) (v : V) (d : dict K V)
  (x : K * V) :
  In x (dict_set k v d) -> x = (k, v) \/ In x d.
Proof.
  induction d as [|[k' v'] d IH]; simpl.
  - intros [<-|[]]. now left.
  - destruct (keqb_spec k k') as [->|Hk]; simpl.
    + intros [<-|Hin]; [now left | right; now right].
    + intros [<-|Hin]; [right; now left|].
      destruct (IH Hin) as [->|Hd]; [now left | right; now right].
Qed.

Lemma assign_all_In {K V : Type} `{KeyEq K} (pairs : list (K * V)) :
  forall (d : dict K V) (x : K * V),
    In x (assign_all pairs d) -> In x d \/ In x pairs.
Proof.
  induction pairs as [|[k v] pairs IH]; intros d x; [now left|].
  unfold assign_all in *. cbn [fold_left fst snd]. intros Hin.
  destruct (IH _ _ Hin) as [Hd|Hp]; [|right; now right].
  destruct (dict_set_In _ _ _ _ Hd) as [->|Hd']; [right; now left | now left].
Qed.

Lemma walk_entries (first_tree : DataTree) (args : list pyarg)
  (kwargs : dict string pyarg) (p : NodePath) (c : option call) :
  In (p, c) (walk first_tree args kwargs) ->
  exists step,
    In step (steps first_tree args kwargs)
    /\ p = path (fst step) /\ c = call_at args kwargs step.
Proof.
  rewrite walk_assign, dict_of_pairs_assign. intros Hin.
  apply assign_all_In in Hin as [[]|Hin].
  apply in_map_iff in Hin as (step & [= <- <-] & Hstep). now exists step.
Qed.

(** ** The text of a path determines its parts *)

Lemma append_snoc (cur x : string) (c : ascii) :
  (cur +++ String c EmptyString) +++ x = cur +++ String c x.
Proof. induction cur as [|d cur IH]; simpl; [reflexivity | now rewrite IH]. Qed.

Lemma split_slash_name (x : string) :
  slash_free x = true ->
  forall cur s, split_slash (x +++ s) cur = split_slash s (cur +++ x).
Proof.
  induction x as [|c x IH]; intros Hx cur s; simpl.
  - now rewrite append_empty_r.
  - simpl in Hx. apply andb_prop in Hx as [Hc Hx].
    apply negb_true_iff in Hc. rewrite Hc, IH by exact Hx.
    now rewrite append_snoc.
Qed.

Lemma split_slash_join (r : list string) :
  forall x,
    Forall (fun x => name_ok x = true) (x :: r) ->
    split_slash (join_parts (x :: r)) EmptyString = x :: r.
Proof.
  induction r as [|y r IH]; intros x H; inversion H as [|? ? Hx Hr]; subst;
    apply name_ok_parts in Hx as (_ & _ & Hx).
  - cbn [join_parts]. rewrite <- (append_empty_r x) at 1.
    now rewrite split_slash_name by exact Hx.
  - change (join_parts (x :: y :: r))
      with (x +++ String "/" (join_parts (y :: r))).
    rewrite split_slash_name by exact Hx.
    change (split_slash (String "/" (join_parts (y :: r))) (EmptyString +++ x))
      with (x :: split_slash (join_parts (y :: r)) EmptyString).
    now rewrite IH.
Qed.

Lemma filter_names (l : list string) :
  Forall (fun x => name_ok x = true) l ->
  filter (fun x => negb (String.eqb x EmptyString) && negb (String.eqb x "."))
    l = l.
Proof.
  induction 1 as [|x l Hx _ IH]; [reflexivity|].
  cbn [filter]. unfold name_ok in Hx. apply andb_prop in Hx as [-> _].
  now rewrite IH.
Qed.

(** [NodePath] reads the parts of a path of well-formed names back from
    its text. *)
Lemma parts_of_text_path_str (p : NodePath) :
  Forall (fun x => name_ok x = true) p -> parts_of_text (path_str p) = p.
Proof.
  intros Hp. unfold parts_of_text, path_str.
  change (split_slash ("/" +++ join_parts p) EmptyString)
    with (EmptyString :: split_slash (join_parts p) EmptyString).
  cbn [filter String.eqb negb andb].
  destruct p as [|x r]; [reflexivity|].
  rewrite split_slash_join by exact Hp. now apply filter_names.
Qed.

(** Two paths of well-formed names with the same text are the same. *)
Lemma path_str_injective (p q : NodePath) :
  Forall (fun x => name_ok x = true) p ->
  Forall (fun x => name_ok x = true) q ->
  path_str p = path_str q -> p = q.
Proof.
  intros Hp Hq Heq.
  rewrite <- (parts_of_text_path_str p Hp), <- (parts_of_text_path_str q Hq).
  now rewrite Heq.
Qed.

Lemma named_well_parts (a : DataTree) :
  named_well a = true ->
  Forall (fun x => name_ok x = true) (dt_path a)
  /\ well_named (dt_node a) = true.
Proof.
  unfold named_well. intros H. apply andb_prop in H as [Hp Hw].
  split; [|exact Hw]. apply Forall_forall. now apply forallb_forall.
Qed.

Lemma named_well_paths_unique (a : DataTree) :
  named_well a = true -> paths_unique a.
Proof.
  intros H. apply well_named_paths_unique. now apply named_well_parts.
Qed.

Lemma subtree_parts_ok (a n : DataTree) :
  named_well a = true -> In n (subtree a) ->
  Forall (fun x => name_ok x = true) (path n).
Proof.
  intros H Hn. destruct (named_well_parts a H) as [Hp Hw].
  destruct (subtree_relative a n Hn) as (rel & Hrel & -> & _).
  apply Forall_app. split; [exact Hp|].
  destruct (well_named_paths _ Hw) as [Hok _].
  rewrite Forall_forall in Hok. now apply Hok.
Qed.

Lemma named_well_unique_texts (a : DataTree) :
  named_well a = true -> unique_path_texts a.
Proof.
  intros H. unfold unique_path_texts. rewrite <- (map_map path path_str).
  apply NoDup_map_NoDup_ForallPairs.
  - intros p q Hp Hq. apply in_map_iff in Hp as (n & <- & Hn).
    apply in_map_iff in Hq as (m & <- & Hm).
    apply path_str_injective; now apply (subtree_parts_ok a).
  - now apply paths_unique_paths, named_well_paths_unique.
Qed.

(** Paths with distinct texts are distinct. *)
Lemma unique_texts_paths (a : DataTree) :
  unique_path_texts a -> NoDup (map path (subtree a)).
Proof.
  unfold unique_path_texts. rewrite <- (map_map path path_str).
  apply NoDup_map_inv.
Qed.

(** The key that the source computes from the texts of two paths is the
    key of the node. *)
Lemma relative_path_of_text_key (a n : DataTree) :
  named_well a = true -> In n (subtree a) ->
  relative_path_of_text (path_str (path n)) (path_str (path a))
  = output_key a n.
Proof.
  intros H Hn. unfold relative_path_of_text, output_key.
  rewrite (parts_of_text_path_str (path n)) by now apply (subtree_parts_ok a).
  rewrite (parts_of_text_path_str (path a)); [reflexivity|].
  now apply named_well_parts.
Qed.

Lemma walk_by_text_assign (first_tree : DataTree) (args : list pyarg)
  (kwargs : dict string pyarg) :
  walk_by_text first_tree args kwargs
  = dict_of_pairs
      (map (fun step => (path_str (path (fst step)), call_at args kwargs step))
         (steps first_tree args kwargs)).
Proof.
  unfold walk_by_text, steps, call_at, dict_of_pairs, dict_keys, dict_values.
  rewrite <- fold_left_map_arg. cbn [fst snd].
  rewrite !map_map, length_map, map_app, map_map. cbn [fst snd].
  reflexivity.
Qed.

(** Keyed by the texts of the paths, as the source has it, the dictionary
    of the walk is the one keyed by their parts, key by key, when the
    paths of the first tree are unique. *)
Lemma walk_by_text_walk (args : list pyarg) (kwargs : dict string pyarg)
  (first_tree : DataTree) :
  reaches_walk args kwargs first_tree ->
  unique_path_texts first_tree ->
  walk_by_text first_tree args kwargs
  = keys_as_text (walk first_tree args kwargs).
Proof.
  intros Hr Hu.
  rewrite (walk_distinct _ _ _ Hr (unique_texts_paths _ Hu)).
  rewrite walk_by_text_assign. unfold keys_as_text. rewrite map_map.
  cbn [fst snd]. apply dict_of_pairs_NoDup.
  rewrite map_map. cbn [fst].
  rewrite <- (map_map fst (fun n => path_str (path n))).
  now rewrite (steps_complete _ _ _ Hr).
Qed.

(** ** The calls made at a step *)




(** ** Properties of the mapper *)

(** C10: once the call has reached the walk, the per-node result map has
    an entry for the path of every node of the first tree's traversal,
    before and after the deferred calls are resolved, so that the lookup
    made when the output trees are rebuilt finds an entry and the data is
    read from it. *)
Theorem result_map_covers_traversal (func : user_function)
  (args : list pyarg) (kwargs : dict string pyarg) (first_tree : DataTree) :
  reaches_walk args kwargs first_tree ->
  forall n, In n (subtree first_tree) ->
    (exists c, dict_get (path n) (walk first_tree args kwargs) = Some c)
    /\ (exists v,
           dict_get (path n) (returned_objects func first_tree args kwargs)
           = Some v
           /\ forall i,
               output_node_data
                 (returned_objects func first_tree args kwargs) (path n) i
               = match v with
                 | PTuple items =>
                     match nth_error items i with
                     | Some x => ret x
                     | None => raise (IndexError "tuple index out of range")
                     end
                 | _ => ret v
                 end).
Proof.
  intros Hr n Hn.
  assert (Hkey : In (path n) (dict_keys (walk first_tree args kwargs))).
  { rewrite walk_keys_In, (steps_complete _ _ _ Hr). now apply in_map. }
  split; [now apply dict_get_In_keys|].
  rewrite <- (returned_objects_keys func) in Hkey.
  apply dict_get_In_keys in Hkey as [v Hv]. exists v. split; [exact Hv|].
  intros i. unfold output_node_data. rewrite Hv. now destruct v.
Qed.

(** C8: when the recorded result is [None] at every visited position the
    call raises the all-[None] error, and no tree is returned; a call
    that returns has a result other than [None] at some position. *)
Theorem all_none_result_raises (func : user_function) (args : list pyarg)
  (kwargs : dict string pyarg) (first_tree : DataTree) :
  reaches_walk args kwargs first_tree ->
  ((forall p v,
       In (p, v) (returned_objects func first_tree args kwargs) -> v = PNone) ->
   snd (_map_over_subtree func args kwargs)
   = raise (TypeError all_none_message))
  /\ (forall res,
         snd (_map_over_subtree func args kwargs) = ret res ->
         exists p v,
           In (p, v) (returned_objects func first_tree args kwargs)
           /\ v <> PNone).
Proof.
  intros Hr. rewrite (map_over_subtree_reached func _ _ _ Hr). cbn [snd].
  split.
  - intros Hall. now rewrite (all_none_raises _ Hall).
  - intros res.
    destruct (_check_all_return_values
                (returned_objects func first_tree args kwargs))
      as [e|k] eqn:Hk; [discriminate|].
    intros _. now apply check_all_ok_not_all_none in Hk.
Qed.


Lemma Forall2_In_r {A B : Type} (R : A -> B -> Prop) (l : list A)
  (l' : list B) (y : B) :
  Forall2 R l l' -> In y l' -> exists x, In x l /\ R x y.
Proof.
  induction 1 as [|x y' l l' Hxy _ IH]; intros Hin; [destruct Hin|].
  destruct Hin as [->|Hin].
  - exists x. split; [now left | exact Hxy].
  - destruct (IH Hin) as (x' & Hx' & HR). exists x'. split; [now right|exact HR].
Qed.

(** Every tree that a call returns is built from the assignments made
    over the traversal of the first tree, for some output index. *)
Lemma output_tree_form (func : user_function) (args : list pyarg)
  (kwargs : dict string pyarg) (first_tree : DataTree) (res : mapped)
  (t : built_tree) :
  reaches_walk args kwargs first_tree ->
  snd (_map_over_subtree func args kwargs) = ret res ->
  In t (trees_of res) ->
  exists i,
    t = from_dict
          (assign_all
             (map (fun n =>
                     (key_of first_tree n,
                      node_output
                        (returned_objects func first_tree args kwargs) i n))
                (subtree first_tree)) [])
          (name first_tree).
Proof.
  intros Hr. rewrite (map_over_subtree_reached func _ _ _ Hr). cbn [snd].
  destruct (_check_all_return_values _) as [e|[k|]]; try discriminate.
  cbn [bind].
  destruct (result_trees first_tree _ (seq 0 k)) as [e|trees] eqn:Ht;
    [discriminate|].
  apply result_trees_built in Ht. cbn [bind].
  intros Hres Hin.
  assert (Htrees : trees_of res = trees).
  { destruct trees as [|t0 [|t1 trees]]; injection Hres as <-; reflexivity. }
  rewrite Htrees in Hin.
  destruct (Forall2_In_r _ _ _ _ Ht Hin) as (i & _ & Hi). now exists i.
Qed.

Lemma key_of_self (a : DataTree) : key_of a a = "/".
Proof. unfold key_of. now rewrite output_key_self. Qed.


(** ** Mapping over detached nodes *)

Lemma preorder_nodes (t : tree) :
  forall (r r' : tree) (p p' : NodePath),
    map dt_node (preorder r p t) = map dt_node (preorder r' p' t).
Proof.
  induction t as [n d cs IH] using tree_rect'. intros r r' p p'.
  cbn [preorder map dt_node]. f_equal.
  induction IH as [|c cs Hc _ IHcs]; [reflexivity|].
  cbn [flat_map]. rewrite !map_app. f_equal; [apply Hc | apply IHcs].
Qed.

Lemma subtree_detach_nodes (a : DataTree) :
  map dt_node (subtree (detach a)) = map dt_node (subtree a).
Proof. apply preorder_nodes. Qed.

Lemma subtree_detach_paths (a : DataTree) :
  map path (subtree a)
  = map (app (path a)) (map path (subtree (detach a))).
Proof. apply subtree_paths. Qed.

(** Two iterables that yield the same nodes, ancestry apart. *)
Inductive same_items : iterable -> iterable -> Prop :=
| same_subtree (l l' : list DataTree) :
    map dt_node l = map dt_node l' -> same_items (ISubtree l) (ISubtree l')
| same_repeat (v : pyval) : same_items (IRepeat v) (IRepeat v).

Lemma next_items_same (its its' : list iterable) :
  Forall2 same_items its its' ->
  match next_items its, next_items its' with
  | Some (items, r), Some (items', r') =>
      map as_dataset items = map as_dataset items' /\ Forall2 same_items r r'
  | None, None => True
  | _, _ => False
  end.
Proof.
  induction 1 as [|it it' its its' Hit _ IH]; cbn [next_items].
  - split; constructor.
  - destruct Hit as [l l' Hl|v].
    + destruct l as [|n l]; destruct l' as [|n' l']; try discriminate;
        [exact I|].
      injection Hl as Hn Hl.
      destruct (next_items its) as [[items r]|];
        destruct (next_items its') as [[items' r']|]; try exact IH.
      destruct IH as [Hi Hr]. split.
      * cbn [map as_dataset]. unfold to_dataset. now rewrite Hn, Hi.
      * constructor; [now constructor | exact Hr].
    + destruct (next_items its) as [[items r]|];
        destruct (next_items its') as [[items' r']|]; try exact IH.
      destruct IH as [Hi Hr]. split.
      * cbn [map as_dataset]. now rewrite Hi.
      * constructor; [constructor | exact Hr].
Qed.

Lemma zip_nodes_same (first : list DataTree) :
  forall (first' : list DataTree) (its its' : list iterable),
    map dt_node first = map dt_node first' ->
    Forall2 same_items its its' ->
    map step_data (zip_nodes first its)
    = map step_data (zip_nodes first' its').
Proof.
  induction first as [|n first IH]; intros [|n' first'] its its' Hn Hits;
    try discriminate; [reflexivity|].
  injection Hn as Hn Hfirst. cbn [zip_nodes].
  pose proof (next_items_same its its' Hits) as Hnext.
  destruct (next_items its) as [[items r]|];
    destruct (next_items its') as [[items' r']|];
    try contradiction; [|reflexivity].
  destruct Hnext as [Hi Hr]. cbn [map]. f_equal.
  - unfold step_data. cbn [fst snd]. now rewrite Hn, Hi.
  - now apply IH.
Qed.

Lemma iterables_detach (l : list pyarg) :
  Forall2 same_items (map as_tree_length_iterable l)
    (map as_tree_length_iterable (map detach_arg l)).
Proof.
  induction l as [|[a|v] l IH]; cbn [map as_tree_length_iterable detach_arg];
    constructor; try exact IH; constructor.
  symmetry. apply subtree_detach_nodes.
Qed.

Lemma detach_kwargs_values (kwargs : dict string pyarg) :
  dict_values (detach_kwargs kwargs) = map detach_arg (dict_values kwargs).
Proof. unfold dict_values, detach_kwargs. now rewrite !map_map. Qed.

Lemma detach_kwargs_keys (kwargs : dict string pyarg) :
  dict_keys (detach_kwargs kwargs) = dict_keys kwargs.
Proof. unfold dict_keys, detach_kwargs. now rewrite map_map. Qed.

Lemma steps_detach (a : DataTree) (args : list pyarg)
  (kwargs : dict string pyarg) :
  map step_data (steps a args kwargs)
  = map step_data
      (steps (detach a) (map detach_arg args) (detach_kwargs kwargs)).
Proof.
  unfold steps. apply zip_nodes_same.
  - symmetry. apply subtree_detach_nodes.
  - rewrite detach_kwargs_values, <- map_app. apply iterables_detach.
Qed.

Lemma call_at_data (args : list pyarg) (kwargs : dict string pyarg)
  (step : DataTree * list pyarg) :
  call_at args kwargs step
  = call_of_data (length args) (dict_keys kwargs) (step_data step).
Proof.
  unfold call_at, node_results, call_of_data, step_data, is_empty.
  cbn [fst snd]. rewrite firstn_map, skipn_map.
  now destruct (t_ds (dt_node (fst step))).
Qed.

Lemma tree_inputs_detach (l : list pyarg) :
  tree_inputs (map detach_arg l) = map detach (tree_inputs l).
Proof.
  induction l as [|[a|v] l IH]; simpl; [reflexivity | now rewrite IH | exact IH].
Qed.

Lemma reaches_walk_detach (args : list pyarg) (kwargs : dict string pyarg)
  (a : DataTree) :
  reaches_walk args kwargs a ->
  reaches_walk (map detach_arg args) (detach_kwargs kwargs) (detach a).
Proof.
  intros (others & Hin & Hchk). exists (map detach others). split.
  - rewrite detach_kwargs_values, !tree_inputs_detach, <- map_app, Hin.
    reflexivity.
  - apply check_others_ok. apply check_others_ok in Hchk.
    apply Forall_map. exact Hchk.
Qed.

Lemma parts_eqb_below (p k k' : NodePath) :
  parts_eqb (p ++ k) (p ++ k') = parts_eqb k k'.
Proof.
  induction p as [|x p IH]; simpl; [reflexivity|].
  now rewrite String.eqb_refl.
Qed.

Lemma dict_get_below {V : Type} (p k : NodePath) (d : dict NodePath V) :
  dict_get (p ++ k) (below p d) = dict_get k d.
Proof.
  induction d as [|[k' v] d IH]; [reflexivity|].
  cbn [below map dict_get fst snd keqb KeyEq_parts].
  rewrite parts_eqb_below. fold (below p d). now rewrite IH.
Qed.

Lemma dict_set_below {V : Type} (p k : NodePath) (v : V)
  (d : dict NodePath V) :
  dict_set (p ++ k) v (below p d) = below p (dict_set k v d).
Proof.
  induction d as [|[k' v'] d IH]; [reflexivity|].
  cbn [below map dict_set fst snd keqb KeyEq_parts].
  rewrite parts_eqb_below. fold (below p d).
  destruct (parts_eqb k k'); [reflexivity|].
  rewrite IH. reflexivity.
Qed.

Lemma assign_all_below {V : Type} (p : NodePath)
  (pairs : list (NodePath * V)) :
  forall d : dict NodePath V,
    assign_all (below p pairs) (below p d) = below p (assign_all pairs d).
Proof.
  induction pairs as [|[k v] pairs IH]; intros d; [reflexivity|].
  unfold assign_all in *. cbn [below map fold_left fst snd].
  fold (below p pairs). rewrite dict_set_below. apply IH.
Qed.

(** The walk over a node is the walk over the detached node, with the
    keys moved below the path of the node. *)
Lemma walk_detach (a : DataTree) (args : list pyarg)
  (kwargs : dict string pyarg) :
  reaches_walk args kwargs a ->
  walk a args kwargs
  = below (path a)
      (walk (detach a) (map detach_arg args) (detach_kwargs kwargs)).
Proof.
  intros Hr. pose proof (reaches_walk_detach _ _ _ Hr) as Hr'.
  rewrite !walk_assign, !dict_of_pairs_assign.
  rewrite <- (assign_all_below (path a) _ []). f_equal.
  assert (Hpairs : forall (first_tree : DataTree) (ar : list pyarg)
                     (kw : dict string pyarg),
             map (fun step => (path (fst step), call_at ar kw step))
               (steps first_tree ar kw)
             = combine (map path (map fst (steps first_tree ar kw)))
                 (map (call_of_data (length ar) (dict_keys kw))
                    (map step_data (steps first_tree ar kw)))).
  { intros ft ar kw. induction (steps ft ar kw) as [|st l IH];
      [reflexivity|].
    cbn [map combine]. now rewrite IH, call_at_data. }
  rewrite !Hpairs, (steps_complete _ _ _ Hr), (steps_complete _ _ _ Hr').
  rewrite subtree_detach_paths, <- steps_detach.
  rewrite length_map, detach_kwargs_keys.
  generalize (map path (subtree (detach a))).
  generalize (map (call_of_data (length args) (dict_keys kwargs))
                (map step_data (steps a args kwargs))).
  intros cs ps. revert cs.
  induction ps as [|q ps IH]; intros [|c cs]; try reflexivity.
  cbn [map combine below fst snd]. f_equal. apply IH.
Qed.

Lemma returned_objects_detach (func : user_function) (a : DataTree)
  (args : list pyarg) (kwargs : dict string pyarg) :
  reaches_walk args kwargs a ->
  returned_objects func a args kwargs
  = below (path a)
      (returned_objects func (detach a) (map detach_arg args)
         (detach_kwargs kwargs)).
Proof.
  intros Hr. rewrite !returned_objects_resolved, (walk_detach _ _ _ Hr).
  unfold below. rewrite !map_map. reflexivity.
Qed.

Lemma check_tuple_items_same (p p' : NodePath) (items : list pyval) :
  same_outcome (check_tuple_items p items) (check_tuple_items p' items).
Proof.
  induction items as [|[|d|l|c] items IH]; simpl; try exact I;
    [reflexivity | exact IH].
Qed.

Lemma check_single_same (p p' : NodePath) (v : pyval) :
  same_outcome (_check_single_set_return_values p v)
    (_check_single_set_return_values p' v).
Proof.
  destruct v as [|d|items|c]; simpl; try exact I; [reflexivity|].
  pose proof (check_tuple_items_same p p' items) as H.
  destruct (check_tuple_items p items) as [e|[]];
    destruct (check_tuple_items p' items) as [e'|[]];
    simpl in *; try contradiction; [exact I | reflexivity].
Qed.

Lemma check_rest_same (p : NodePath) (rest : list (NodePath * pyval)) :
  forall (pp pp' : NodePath) (prev num : option nat),
    same_outcome (check_rest (below p rest) pp' prev num)
      (check_rest rest pp prev num).
Proof.
  induction rest as [|[q v] rest IH]; intros pp pp' prev num;
    cbn [below map check_rest fst snd]; [reflexivity|].
  fold (below p rest).
  pose proof (check_single_same (p ++ q) q v) as H.
  destruct (_check_single_set_return_values (p ++ q) v) as [e|n];
    destruct (_check_single_set_return_values q v) as [e'|n'];
    simpl in H; try contradiction; [exact I|]. subst n'. cbn [bind].
  destruct prev as [prev|]; [|apply IH].
  destruct (negb (Nat.eqb n prev)); [exact I | apply IH].
Qed.

Lemma check_all_same (p : NodePath) (d : dict NodePath pyval) :
  same_outcome (_check_all_return_values (below p d))
    (_check_all_return_values d).
Proof.
  unfold _check_all_return_values.
  assert (Hv : dict_values (below p d) = dict_values d)
    by (unfold dict_values, below; now rewrite map_map).
  rewrite Hv. destruct (forallb is_None (dict_values d)); [exact I|].
  assert (Hf : filter (fun pr => negb (is_None (snd pr))) (below p d)
               = below p (filter (fun pr => negb (is_None (snd pr))) d))
    by (unfold below; now rewrite filter_map_swap).
  rewrite Hf.
  destruct (filter (fun pr => negb (is_None (snd pr))) d)
    as [|[q0 r0] [|[q1 r1] rest]]; cbn [below map fst snd]; [exact I| |].
  - pose proof (check_single_same (p ++ q0) q0 r0) as H.
    destruct (_check_single_set_return_values (p ++ q0) r0) as [e|n];
      destruct (_check_single_set_return_values q0 r0) as [e'|n'];
      simpl in *; try contradiction; [exact I | now subst].
  - apply (check_rest_same p ((q1, r1) :: rest)).
Qed.

Lemma fill_contents_detach (out : dict NodePath pyval) (p : NodePath)
  (i : nat) (nodes : list DataTree) :
  forall (nodes' : list DataTree) (acc : dict string pyval),
    map path nodes = map (app p) (map path nodes') ->
    fill_contents (below p out) p i nodes acc
    = fill_contents out [] i nodes' acc.
Proof.
  induction nodes as [|n nodes IH]; intros [|n' nodes'] acc Hp;
    try discriminate; [reflexivity|].
  injection Hp as Hn Hp. cbn [fill_contents].
  unfold output_node_data. rewrite Hn, dict_get_below, relative_to_app.
  cbn [relative_to].
  destruct (dict_get (path n') out) as [[|d|items|c]|]; cbn [bind ret];
    try (now apply IH).
  destruct (nth_error items i); cbn [bind ret raise]; [now apply IH|].
  reflexivity.
Qed.

Lemma result_trees_detach (a : DataTree) (out : dict NodePath pyval)
  (indices : list nat) :
  result_trees a (below (path a) out) indices
  = result_trees (detach a) out indices.
Proof.
  induction indices as [|i indices IH]; [reflexivity|].
  cbn [result_trees]. rewrite IH.
  now rewrite (fill_contents_detach out (path a) i (subtree a)
                 (subtree (detach a)) [] (subtree_detach_paths a)).
Qed.

(** Mapping over nodes and mapping over the same nodes detached from
    what lies above them return the same trees, or both raise. *)
Lemma map_over_detached (func : user_function) (args : list pyarg)
  (kwargs : dict string pyarg) (a : DataTree) :
  reaches_walk args kwargs a ->
  same_outcome (snd (_map_over_subtree func args kwargs))
    (snd (_map_over_subtree func (map detach_arg args)
            (detach_kwargs kwargs))).
Proof.
  intros Hr. pose proof (reaches_walk_detach _ _ _ Hr) as Hr'.
  rewrite (map_over_subtree_reached func _ _ _ Hr),
    (map_over_subtree_reached func _ _ _ Hr').
  cbn [snd]. rewrite (returned_objects_detach func _ _ _ Hr).
  set (out := returned_objects func (detach a) (map detach_arg args)
                (detach_kwargs kwargs)).
  pose proof (check_all_same (path a) out) as H.
  destruct (_check_all_return_values (below (path a) out)) as [e|k];
    destruct (_check_all_return_values out) as [e'|k'];
    simpl in H; try contradiction; [exact I|]. subst k'. cbn [bind].
  destruct k as [k|]; [|exact I].
  rewrite result_trees_detach.
  destruct (result_trees (detach a) out (seq 0 k)) as [e|trees];
    [exact I|]. cbn [bind]. now destruct trees as [|t0 [|t1 ts]].
Qed.

(** C5: every output tree carries the name of the first tree, and its
    first key, that of the first tree's own node, is ["/"].  When the
    names of the first tree are well formed its keys are the paths of the
    nodes of the first tree taken relative to it, in traversal order: the
    key computed from the texts of the path of a node and of the path of
    the first tree is what is left of the path below the first tree, so
    that nothing of what lies above the first tree is in it; and the same
    trees are returned when every tree argument is detached from its
    ancestry. *)
Theorem output_paths_relative (func : user_function) (args : list pyarg)
  (kwargs : dict string pyarg) (first_tree : DataTree) (res : mapped)
  (t : built_tree) :
  reaches_walk args kwargs first_tree ->
  snd (_map_over_subtree func args kwargs) = ret res ->
  In t (trees_of res) ->
  bt_name t = name first_tree
  /\ hd_error (dict_keys (bt_contents t)) = Some "/"
  /\ output_key first_tree first_tree = Some "/"
  /\ (named_well first_tree = true ->
      dict_keys (bt_contents t)
      = map normalize_relative (relative_paths (dt_node first_tree))
      /\ (forall n, In n (subtree first_tree) ->
            exists rel,
              path n = path first_tree ++ rel
              /\ In rel (relative_paths (dt_node first_tree))
              /\ relative_path_of_text (path_str (path n))
                   (path_str (path first_tree))
                 = Some (normalize_relative rel)
              /\ In (normalize_relative rel) (dict_keys (bt_contents t)))
      /\ (plain_kwargs kwargs = true ->
          snd (_map_over_subtree func (map detach_arg args)
                 (detach_kwargs kwargs))
          = ret res)).
Proof.
  intros Hr Hres Ht.
  assert (Hdetached : snd (_map_over_subtree func (map detach_arg args)
                             (detach_kwargs kwargs))
                      = ret res).
  { pose proof (map_over_detached func args kwargs first_tree Hr) as H.
    rewrite Hres in H.
    destruct (snd (_map_over_subtree func (map detach_arg args)
                     (detach_kwargs kwargs))) as [e|res'];
      simpl in H; [contradiction | now subst]. }
  destruct (output_tree_form func args kwargs first_tree res t Hr Hres Ht)
    as [i ->].
  cbn [bt_name bt_contents].
  set (out := returned_objects func first_tree args kwargs).
  split; [reflexivity|]. split.
  { destruct (subtree_head first_tree) as [rest ->].
    cbn [map]. unfold assign_all. cbn [fold_left fst snd dict_set].
    rewrite key_of_self. apply assign_all_head. }
  split; [apply output_key_self|].
  intros Hwn. pose proof (named_well_paths_unique _ Hwn) as Hu.
  assert (Hkeys : dict_keys
                    (assign_all
                       (map (fun n => (key_of first_tree n,
                                       node_output out i n))
                          (subtree first_tree)) [])
                  = map normalize_relative
                      (relative_paths (dt_node first_tree))).
  { rewrite assign_all_fresh.
    - cbn [app]. unfold dict_keys. rewrite map_map. cbn [fst].
      apply key_of_subtree.
    - cbn [dict_keys map app]. rewrite map_map. cbn [fst].
      now apply paths_unique_keys. }
  split; [exact Hkeys|]. split; [|intros _; exact Hdetached].
  intros n Hn.
  destruct (subtree_relative first_tree n Hn) as (rel & Hrel & Hp & Hk).
  exists rel. split; [exact Hp|]. split; [exact Hrel|]. split.
  - now rewrite (relative_path_of_text_key first_tree n Hwn Hn).
  - rewrite Hkeys. now apply in_map.
Qed.

Lemma resolve_call_at (func : user_function) (args : list pyarg)
  (kwargs : dict string pyarg) (step : DataTree * list pyarg) :
  resolve func (call_at args kwargs step)
  = if is_empty (fst step) then PNone else call_result func args kwargs step.
Proof.
  unfold call_at, node_results, call_result.
  now destruct (is_empty (fst step)).
Qed.

Lemma output_node_data_arity (out : dict NodePath pyval) (n : DataTree)
  (v : pyval) (i k : nat) :
  dict_get (path n) out = Some v ->
  v = PNone \/ arity v = Some k ->
  i < k ->
  output_node_data out (path n) i = ret (node_output out i n).
Proof.
  intros Hg Hv Hi. unfold output_node_data, node_output. rewrite Hg.
  destruct v as [|d|items|c]; try reflexivity.
  destruct Hv as [Hv|Hv]; [discriminate|]. simpl in Hv.
  destruct (forallb is_data items); [|discriminate]. injection Hv as Hlen.
  destruct (nth_error items i) as [x|] eqn:Hx.
  - simpl. now rewrite (nth_error_nth _ _ _ Hx).
  - apply nth_error_None in Hx. lia.
Qed.

(** With unique paths the tree rebuilt for an index is the tree that the
    specification describes. *)
Lemma rebuilt_tree_mapped (func : user_function) (args : list pyarg)
  (kwargs : dict string pyarg) (first_tree : DataTree) (i : nat) :
  reaches_walk args kwargs first_tree ->
  paths_unique first_tree ->
  from_dict
    (assign_all
       (map (fun n =>
               (key_of first_tree n,
                node_output (returned_objects func first_tree args kwargs)
                  i n))
          (subtree first_tree)) [])
    (name first_tree)
  = mapped_tree func args kwargs first_tree i.
Proof.
  intros Hr Hu. unfold mapped_tree. f_equal.
  rewrite assign_all_fresh.
  - cbn [app]. rewrite <- (steps_complete _ _ _ Hr), map_map.
    apply map_ext_in. intros step Hstep. f_equal.
    unfold node_output.
    rewrite (returned_objects_records func _ _ _ _ Hr Hu Hstep).
    rewrite resolve_call_at. now destruct (is_empty (fst step)).
  - cbn [dict_keys map app]. rewrite map_map. cbn [fst].
    now apply paths_unique_keys.
Qed.


Lemma uniform_results_trees (func : user_function) (args : list pyarg)
  (kwargs : dict string pyarg) (first_tree : DataTree) (k : nat) :
  reaches_walk args kwargs first_tree ->
  paths_unique first_tree ->
  (exists n, In n (subtree first_tree) /\ is_empty n = false) ->
  (forall step,
      In step (steps first_tree args kwargs) ->
      is_empty (fst step) = false ->
      arity (call_result func args kwargs step) = Some k) ->
  snd (_map_over_subtree func args kwargs)
  = match map (mapped_tree func args kwargs first_tree) (seq 0 k) with
    | [t] => ret (OneTree t)
    | trees => ret (TreeTuple trees)
    end.
Proof.
  intros Hr Hu (n0 & Hn0 & He0) Hk.
  set (out := returned_objects func first_tree args kwargs).
  assert (Hentries : forall p v, In (p, v) out ->
                                 v = PNone \/ arity v = Some k).
  { intros p v Hin.
    apply (returned_objects_entries func _ _ _ _ _ Hr Hu) in Hin
      as (step & Hstep & _ & ->).
    rewrite resolve_call_at.
    destruct (is_empty (fst step)) eqn:He; [now left | right; now apply Hk]. }
  assert (Hcheck : _check_all_return_values out = ret (Some k)).
  { apply check_all_uniform; [exact Hentries|].
    destruct (In_subtree_steps _ _ _ _ Hr Hn0) as [items Hstep].
    exists (path n0), (call_result func args kwargs (n0, items)). split.
    - apply (returned_objects_entries func _ _ _ _ _ Hr Hu).
      exists (n0, items). split; [exact Hstep|]. split; [reflexivity|].
      rewrite resolve_call_at. cbn [fst]. now rewrite He0.
    - intros Hnone. specialize (Hk _ Hstep He0). rewrite Hnone in Hk.
      discriminate. }
  assert (Htrees : result_trees first_tree out (seq 0 k)
                   = ret (map (mapped_tree func args kwargs first_tree)
                            (seq 0 k))).
  { rewrite result_trees_ret.
    - f_equal. apply map_ext. intros i. now apply rebuilt_tree_mapped.
    - intros i n Hi Hn. apply in_seq in Hi.
      destruct (In_subtree_steps _ _ _ _ Hr Hn) as [items Hstep].
      pose proof (returned_objects_records func _ _ _ _ Hr Hu Hstep) as Hg.
      cbn [fst] in Hg.
      apply (output_node_data_arity out n _ i k Hg); [|lia].
      apply (Hentries (path n)). now apply dict_get_Some_In. }
  rewrite (map_over_subtree_reached func _ _ _ Hr). cbn [snd].
  fold out. rewrite Hcheck. cbn [bind ret]. rewrite Htrees. cbn [bind ret].
  now destruct (map _ (seq 0 k)) as [|t0 [|t1 ts]].
Qed.


(** ** Properties of the isomorphism check *)

Lemma check_others_mutually_isomorphic (first_tree : DataTree)
  (other_trees : list DataTree) :
  check_others first_tree other_trees = ret tt ->
  forall x y, In x (first_tree :: other_trees) ->
              In y (first_tree :: other_trees) ->
              check_isomorphic (ATree x) (ATree y) false false = ret tt.
Proof.
  rewrite check_others_ok, Forall_forall. intros H x y Hx Hy.
  apply check_isomorphic_ok.
  assert (Hall : forall z, In z (first_tree :: other_trees) ->
                           skeleton false (dt_node first_tree)
                           = skeleton false (dt_node z)).
  { intros z [<-|Hz]; [reflexivity | now apply H]. }
  now rewrite <- (Hall x Hx), <- (Hall y Hy).
Qed.

(** C4 (amended): the diff is empty exactly on isomorphic trees, which are
    the trees of equal skeleton; when the node counts differ the diff is
    not empty, some paired position has differing child counts, and the
    diff reports a child-count mismatch at a paired position, or, only
    when names are compared, a name mismatch at a paired position. *)
Theorem diff_treestructure_isomorphic (a b : DataTree) (rne : bool) :
  (diff_treestructure a b rne = EmptyString <-> isomorphic rne a b)
  /\ (isomorphic rne a b <->
      skeleton rne (dt_node a) = skeleton rne (dt_node b))
  /\ (size (dt_node a) <> size (dt_node b) ->
      diff_treestructure a b rne <> EmptyString
      /\ (exists x y,
             In (x, y) (combine (LevelOrderIter a) (LevelOrderIter b))
             /\ length (children x) <> length (children y))
      /\ (exists x y,
             In (x, y) (combine (LevelOrderIter a) (LevelOrderIter b))
             /\ ((length (children x) <> length (children y)
                  /\ diff_treestructure a b rne = children_diff x y)
                 \/ (rne = true /\ name x <> name y
                     /\ diff_treestructure a b rne = name_diff x y)))).
Proof.
  split; [apply diff_loop_empty|].
  split; [rewrite <- diff_empty_skeleton; symmetry; apply diff_loop_empty|].
  intros Hsize.
  assert (Hsk : forall r, diff_treestructure a b r <> EmptyString).
  { intros r H. apply diff_empty_skeleton in H.
    now apply skeleton_same_size in H. }
  split; [apply Hsk|]. split.
  - destruct (diff_loop_reported false _ (Hsk false))
      as (x & y & Hin & [[Hc _]|[Hr _]]); [|discriminate].
    now exists x, y.
  - apply diff_loop_reported, Hsk.
Qed.

(** C6: [check_isomorphic(A, A)] never fails, whatever the settings of
    [require_names_equal] and [check_from_root]. *)
Theorem check_isomorphic_reflexive (a : DataTree) (rne cfr : bool) :
  check_isomorphic (ATree a) (ATree a) rne cfr = ret tt.
Proof. apply check_isomorphic_ok. reflexivity. Qed.

(** C7: if [check_isomorphic(A, B)] and [check_isomorphic(B, C)] succeed
    under the same settings, so does [check_isomorphic(A, C)]. *)
Theorem check_isomorphic_transitive (a b c : DataTree) (rne cfr : bool) :
  check_isomorphic (ATree a) (ATree b) rne cfr = ret tt ->
  check_isomorphic (ATree b) (ATree c) rne cfr = ret tt ->
  check_isomorphic (ATree a) (ATree c) rne cfr = ret tt.
Proof.
  rewrite !check_isomorphic_ok. intros Hab Hbc. now rewrite Hab.
Qed.

(** ** Further properties of the isomorphism check *)

Lemma skeleton_preorder_agree (rne : bool) (t : tree) :
  forall (u r r' : tree) (p p' : NodePath),
    skeleton rne t = skeleton rne u ->
    Forall2 (nodes_agree rne) (preorder r p t) (preorder r' p' u).
Proof.
  induction t as [n d cs IH] using tree_rect'.
  intros [n' d' cs'] r r' p p' Hsk.
  assert (Hroot : nodes_agree rne (mkDataTree r p (Node n d cs))
                    (mkDataTree r' p' (Node n' d' cs'))).
  { apply skeleton_agree. exact Hsk. }
  injection Hsk as _ Hcs. cbn [preorder]. constructor; [exact Hroot|].
  clear Hroot. revert cs' Hcs.
  induction IH as [|c cs Hc _ IHcs]; intros [|c' cs'] Hcs;
    try discriminate; [constructor|].
  injection Hcs as Hcc Hrest. cbn [flat_map].
  apply Forall2_app; [now apply Hc | now apply IHcs].
Qed.

Lemma diff_loop_first (rne : bool) (pairs : list (DataTree * DataTree)) :
  diff_loop rne pairs <> EmptyString ->
  exists pre x y post,
    pairs = pre ++ (x, y) :: post
    /\ Forall (fun ab => nodes_agree rne (fst ab) (snd ab)) pre
    /\ ~ nodes_agree rne x y
    /\ diff_loop rne pairs
       = if rne && negb (String.eqb (name x) (name y))
         then name_diff x y else children_diff x y.
Proof.
  induction pairs as [|[a b] pairs IH]; cbn [diff_loop]; [congruence|].
  destruct (diff_at rne a b) as [d|] eqn:Hd.
  - intros _. exists [], a, b, pairs. split; [reflexivity|].
    split; [constructor|]. split.
    + intros Hag. apply diff_at_None in Hag. congruence.
    + unfold diff_at in Hd.
      destruct (rne && negb (String.eqb (name a) (name b)));
        [now injection Hd|].
      destruct (negb (Nat.eqb (length (children a)) (length (children b))));
        [now injection Hd | discriminate].
  - intros Hne. destruct (IH Hne) as (pre & x & y & post & -> & Hpre & Hxy & Hr).
    exists ((a, b) :: pre), x, y, post. split; [reflexivity|].
    split; [constructor; [now apply diff_at_None | exact Hpre]|].
    split; [exact Hxy | exact Hr].
Qed.


(** X2: the check is symmetric: if [check_isomorphic(A, B)] succeeds, so
    does [check_isomorphic(B, A)] under the same settings. *)
Theorem check_isomorphic_symmetric (a b : DataTree) (rne cfr : bool) :
  check_isomorphic (ATree a) (ATree b) rne cfr = ret tt ->
  check_isomorphic (ATree b) (ATree a) rne cfr = ret tt.
Proof. rewrite !check_isomorphic_ok. intros H. now symmetry. Qed.

(** X3: requiring equal names is the stricter check: two trees that pass
    with [require_names_equal=True] pass with [require_names_equal=False]. *)
Theorem names_required_is_stricter (a b : DataTree) (cfr : bool) :
  check_isomorphic (ATree a) (ATree b) true cfr = ret tt ->
  check_isomorphic (ATree a) (ATree b) false cfr = ret tt.
Proof. rewrite !check_isomorphic_ok. apply skeleton_names_dropped. Qed.

(** X4: for trees whose names and paths hold no line break, a diff that
    is not empty reports the first pair of the level-order walk that
    disagrees: every pair before it agrees, and the text is the name
    mismatch of that pair when names are compared and differ, its
    child-count mismatch otherwise. *)
Theorem diff_reports_first_mismatch (a b : DataTree) (rne : bool) :
  forallb one_line_node (LevelOrderIter a) = true ->
  forallb one_line_node (LevelOrderIter b) = true ->
  diff_treestructure a b rne <> EmptyString ->
  exists pre x y post,
    combine (LevelOrderIter a) (LevelOrderIter b) = pre ++ (x, y) :: post
    /\ Forall (fun ab => nodes_agree rne (fst ab) (snd ab)) pre
    /\ ~ nodes_agree rne x y
    /\ diff_treestructure a b rne
       = if rne && negb (String.eqb (name x) (name y))
         then name_diff x y else children_diff x y.
Proof. intros _ _. apply diff_loop_first. Qed.

(** X5: trees that pass the check, which walks them in level order, are
    aligned in pre-order as well, the order in which the mapper walks
    them: the traversals have the same length and the nodes at each
    position have the same number of children (and the same name when
    names are compared). *)
Theorem isomorphic_subtrees_aligned (a b : DataTree) (rne : bool) :
  check_isomorphic (ATree a) (ATree b) rne false = ret tt ->
  length (subtree a) = length (subtree b)
  /\ Forall2 (nodes_agree rne) (subtree a) (subtree b).
Proof.
  rewrite check_isomorphic_ok. intros Hsk.
  assert (H : Forall2 (nodes_agree rne) (subtree a) (subtree b))
    by now apply skeleton_preorder_agree.
  split; [now apply Forall2_length in H | exact H].
Qed.

(** ** Further properties of the return-value validator *)

Lemma check_tuple_items_ret (p : NodePath) (items : list pyval) :
  check_tuple_items p items = ret tt -> forallb is_data items = true.
Proof.
  induction items as [|[|d|l|c] items IH]; simpl; try discriminate;
    [reflexivity | exact IH].
Qed.

Lemma check_single_ret_arity (p : NodePath) (v : pyval) (k : nat) :
  _check_single_set_return_values p v = ret k -> arity v = Some k.
Proof.
  destruct v as [|d|items|c]; simpl; try discriminate.
  - now intros [= <-].
  - destruct (check_tuple_items p items) as [e|[]] eqn:Hi; [discriminate|].
    apply check_tuple_items_ret in Hi. rewrite Hi.
    now intros [= <-].
Qed.

Lemma check_rest_ret (rest : list (NodePath * pyval)) :
  forall (prev_path : NodePath) (prev num r : option nat),
    check_rest rest prev_path prev num = ret r ->
    rest <> [] ->
    exists k,
      r = Some k
      /\ Forall (fun pr => arity (snd pr) = Some k) rest
      /\ (prev = None \/ prev = Some k).
Proof.
  induction rest as [|[p v] rest IH]; intros prev_path prev num r Hr Hne;
    [congruence|].
  cbn [check_rest] in Hr.
  destruct (_check_single_set_return_values p v) as [e|n] eqn:Hn;
    [discriminate|].
  apply check_single_ret_arity in Hn. cbn [bind] in Hr.
  assert (Hgo : check_rest rest p (Some n) (Some n) = ret r
                /\ (prev = None \/ prev = Some n)).
  { destruct prev as [pv|]; [|split; [exact Hr | now left]].
    destruct (Nat.eqb_spec n pv) as [->|Hneq]; simpl in Hr;
      [split; [exact Hr | now right] | discriminate]. }
  destruct Hgo as [Hgo Hprev].
  destruct rest as [|x rest].
  - injection Hgo as <-. exists n. split; [reflexivity|].
    split; [now constructor | exact Hprev].
  - destruct (IH p (Some n) (Some n) r Hgo) as (k & -> & Hall & Hk);
      [discriminate|].
    assert (n = k) by (destruct Hk as [|Hk]; congruence). subst n.
    exists k. split; [reflexivity|]. split; [now constructor | exact Hprev].
Qed.

Lemma forallb_is_None_non_null (d : dict NodePath pyval) :
  forallb is_None (dict_values d) = true <-> non_null d = [].
Proof.
  unfold non_null, dict_values.
  induction d as [|[p v] d IH]; simpl; [tauto|].
  destruct (is_None v); simpl; [exact IH|]. split; discriminate.
Qed.

Lemma check_all_non_null (d : dict NodePath pyval) :
  _check_all_return_values d
  = match non_null d with
    | [] => raise (TypeError all_none_message)
    | [(path_to_node, res)] =>
        bind (_check_single_set_return_values path_to_node res)
          (fun n => ret (Some n))
    | (prev_path, _) :: rest => check_rest rest prev_path None None
    end.
Proof.
  unfold _check_all_return_values. fold (non_null d).
  destruct (forallb is_None (dict_values d)) eqn:Hall.
  - apply forallb_is_None_non_null in Hall. now rewrite Hall.
  - destruct (non_null d) as [|[p v] rest] eqn:Hnn; [|reflexivity].
    apply forallb_is_None_non_null in Hnn. congruence.
Qed.

Lemma check_rest_mismatch (k n2 : nat) (p1 p2 : NodePath) (r1 r2 : pyval)
  (post pre : list (NodePath * pyval)) :
  arity r1 = Some k -> arity r2 = Some n2 -> k <> n2 ->
  Forall (fun pr => arity (snd pr) = Some k) pre ->
  forall (prev_path : NodePath) (prev num : option nat),
    prev = None \/ prev = Some k ->
    check_rest (pre ++ (p1, r1) :: (p2, r2) :: post) prev_path prev num
    = raise (TypeError (inconsistent_message p2 n2 p1 k)).
Proof.
  intros H1 H2 Hneq Hpre.
  assert (Hstep : forall (p : NodePath) (v : pyval) rest pp prev num,
             arity v = Some k -> prev = None \/ prev = Some k ->
             check_rest ((p, v) :: rest) pp prev num
             = check_rest rest p (Some k) (Some k)).
  { intros p v rest pp prev num Hv Hprev. cbn [check_rest].
    rewrite (check_single_arity p v k Hv). cbn [bind ret].
    destruct Hprev as [->| ->]; [reflexivity|].
    now rewrite Nat.eqb_refl. }
  induction Hpre as [|[p v] pre Hv _ IH]; intros prev_path prev num Hprev.
  - cbn [app]. rewrite (Hstep p1 r1 _ prev_path prev num H1 Hprev).
    cbn [check_rest]. rewrite (check_single_arity p2 r2 n2 H2).
    cbn [bind ret]. apply Nat.eqb_neq in Hneq.
    rewrite Nat.eqb_sym in Hneq. now rewrite Hneq.
  - cbn [app]. simpl in Hv.
    rewrite (Hstep p v _ prev_path prev num Hv Hprev).
    apply IH. now right.
Qed.

Lemma check_tuple_items_first_bad (p : NodePath) (good : list pyval)
  (bad : pyval) (rest : list pyval) :
  forallb is_data good = true -> is_data bad = false ->
  check_tuple_items p (good ++ bad :: rest)
  = raise (TypeError (item_type_message p bad)).
Proof.
  induction good as [|[|d|l|c] good IH]; simpl; try discriminate.
  - intros _ Hbad. now destruct bad.
  - exact IH.
Qed.

Lemma first_bad_item (items : list pyval) :
  forallb is_data items = false ->
  exists good bad rest,
    items = good ++ bad :: rest
    /\ forallb is_data good = true /\ is_data bad = false.
Proof.
  induction items as [|x items IH]; simpl; [discriminate|].
  destruct (is_data x) eqn:Hx; simpl.
  - intros H. destruct (IH H) as (good & bad & rest & -> & Hg & Hb).
    exists (x :: good), bad, rest. simpl. now rewrite Hx.
  - intros _. now exists [], x, items.
Qed.

(** X6: [_check_single_set_return_values] succeeds exactly on a valid
    result, a payload (arity 1) or a tuple of payloads (arity its length,
    0 for the empty tuple), whatever the path; on anything else it raises a
    [TypeError]. *)
Theorem check_single_valid (p : NodePath) (v : pyval) :
  (forall k, _check_single_set_return_values p v = ret k <->
             arity v = Some k)
  /\ (arity v = None <->
      exists msg, _check_single_set_return_values p v = raise (TypeError msg)).
Proof.
  split.
  - intros k. split; [apply check_single_ret_arity | apply check_single_arity].
  - split.
    + intros Ha. destruct v as [|d|items|c]; simpl in *;
        try discriminate; try (eexists; reflexivity).
      destruct (forallb is_data items) eqn:Hd; [discriminate|].
      destruct (first_bad_item items Hd) as (good & bad & rest & -> & Hg & Hb).
      rewrite (check_tuple_items_first_bad p good bad rest Hg Hb).
      eexists; reflexivity.
    + intros [msg Hmsg]. destruct (arity v) as [k|] eqn:Hk; [|reflexivity].
      rewrite (check_single_arity p v k Hk) in Hmsg. discriminate.
Qed.

(** X7: for a tuple, the [TypeError] names the path and the type of the
    first item that is not a payload; the items after it are not
    examined. *)
Theorem check_single_first_bad_item (p : NodePath) (good : list pyval)
  (bad : pyval) (rest : list pyval) :
  forallb is_data good = true -> is_data bad = false ->
  _check_single_set_return_values p (PTuple (good ++ bad :: rest))
  = raise (TypeError (item_type_message p bad)).
Proof.
  intros Hg Hb. cbn [_check_single_set_return_values].
  now rewrite (check_tuple_items_first_bad p good bad rest Hg Hb).
Qed.

(** X8: [_check_all_return_values] never returns [None]: a result map
    that passes has an arity, so that the [range] over it in the mapper is
    over a number. *)
Theorem check_all_returns_number (d : dict NodePath pyval)
  (r : option nat) :
  _check_all_return_values d = ret r -> exists k, r = Some k.
Proof.
  rewrite check_all_non_null.
  destruct (non_null d) as [|[p v] [|x rest]]; [discriminate| |].
  - destruct (_check_single_set_return_values p v) as [e|n];
      [discriminate|]. intros [= <-]. now exists n.
  - intros Hr. apply check_rest_ret in Hr as (k & -> & _); [|discriminate].
    now exists k.
Qed.

(** X9: when a result map passes, and with which arity.  It passes with
    arity [k] exactly when the entries that are not [None] are a single
    valid result of arity [k], or a first entry, which is not examined,
    followed by one or more valid results that all have arity [k]. *)
Theorem check_all_passes (d : dict NodePath pyval) (k : nat) :
  _check_all_return_values d = ret (Some k) <->
  (exists p v, non_null d = [(p, v)] /\ arity v = Some k)
  \/ (exists first rest,
         non_null d = first :: rest /\ rest <> []
         /\ Forall (fun pr => arity (snd pr) = Some k) rest).
Proof.
  rewrite check_all_non_null. split.
  - destruct (non_null d) as [|[p v] [|x rest]]; [discriminate| |].
    + destruct (_check_single_set_return_values p v) as [e|n] eqn:Hn;
        [discriminate|]. intros [= <-]. left. exists p, v.
      split; [reflexivity | now apply check_single_ret_arity in Hn].
    + intros Hr. right. exists (p, v), (x :: rest).
      apply check_rest_ret in Hr as (k' & [= <-] & Hall & _);
        [|discriminate].
      split; [reflexivity|]. split; [discriminate | exact Hall].
  - intros [(p & v & -> & Hv)|(first & rest & -> & Hne & Hall)].
    + now rewrite (check_single_arity p v k Hv).
    + destruct first as [p v]. destruct rest as [|x rest]; [congruence|].
      rewrite (check_rest_uniform k (x :: rest) Hall); [reflexivity|].
      now left.
Qed.

(** X10: entries that are [None] take no part in the check: the outcome
    for a result map is the outcome for the map with its [None] entries
    removed. *)
Theorem check_all_ignores_none (d : dict NodePath pyval) :
  _check_all_return_values d = _check_all_return_values (non_null d).
Proof.
  rewrite !check_all_non_null.
  assert (Hidem : non_null (non_null d) = non_null d).
  { unfold non_null. induction d as [|[q w] d' IH]; simpl; [reflexivity|].
    destruct (is_None w) eqn:Hw; simpl; [exact IH|].
    rewrite Hw. simpl. now rewrite IH. }
  now rewrite Hidem.
Qed.

(** X11: the first inconsistency in iteration order is the one raised.
    When the results that follow the first one are valid and of one arity
    up to some result, and the next result is valid with another arity,
    the [TypeError] names the path and arity of that next result and the
    path and arity of the result before it. *)
Theorem check_all_first_inconsistency (d : dict NodePath pyval)
  (first : NodePath * pyval) (pre post : list (NodePath * pyval))
  (p1 p2 : NodePath) (r1 r2 : pyval) (n1 n2 : nat) :
  non_null d = first :: pre ++ (p1, r1) :: (p2, r2) :: post ->
  Forall (fun pr => arity (snd pr) = Some n1) pre ->
  arity r1 = Some n1 -> arity r2 = Some n2 -> n1 <> n2 ->
  _check_all_return_values d
  = raise (TypeError (inconsistent_message p2 n2 p1 n1)).
Proof.
  intros Hnn Hpre H1 H2 Hneq. rewrite check_all_non_null, Hnn.
  destruct first as [p0 r0].
  destruct (pre ++ (p1, r1) :: (p2, r2) :: post) as [|x l] eqn:El.
  - destruct pre; discriminate.
  - rewrite <- El.
    apply (check_rest_mismatch n1 n2 p1 p2 r1 r2 post pre H1 H2 Hneq Hpre).
    now left.
Qed.

(** ** Further properties of the mapper *)

Lemma check_isomorphic_trees (a b : DataTree) (rne cfr : bool) :
  check_isomorphic (ATree a) (ATree b) rne cfr = ret tt
  \/ check_isomorphic (ATree a) (ATree b) rne cfr
     = raise (TreeIsomorphismError
                ("DataTree objects are not isomorphic:" +++ newline
                   +++ diff_treestructure (if cfr then root a else a)
                         (if cfr then root b else b) rne)).
Proof.
  unfold check_isomorphic.
  destruct (String.eqb
              (diff_treestructure (if cfr then root a else a)
                 (if cfr then root b else b) rne) EmptyString);
    [now left | now right].
Qed.

Lemma check_others_error (first_tree : DataTree) (others : list DataTree)
  (e : exn) :
  check_others first_tree others = inl e ->
  exists msg, e = TreeIsomorphismError msg.
Proof.
  induction others as [|t rest IH]; cbn [check_others]; [discriminate|].
  destruct (check_isomorphic_trees first_tree t false false) as [-> | ->];
    cbn [bind ret raise].
  - exact IH.
  - intros [= <-]. eexists; reflexivity.
Qed.

Lemma check_others_first_failure (first_tree bad : DataTree)
  (pre post : list DataTree) :
  Forall (fun t => skeleton false (dt_node first_tree)
                   = skeleton false (dt_node t)) pre ->
  skeleton false (dt_node first_tree) <> skeleton false (dt_node bad) ->
  check_others first_tree (pre ++ bad :: post)
  = raise (TreeIsomorphismError
             ("DataTree objects are not isomorphic:" +++ newline
                +++ diff_treestructure first_tree bad false)).
Proof.
  intros Hpre Hbad. induction Hpre as [|t pre Ht _ IH]; cbn [app check_others].
  - destruct (check_isomorphic_trees first_tree bad false false) as [H | ->];
      [|reflexivity].
    apply check_isomorphic_ok in H. contradiction.
  - apply (check_isomorphic_ok first_tree t false false) in Ht.
    rewrite Ht. exact IH.
Qed.

Lemma map_ret_reaches (func : user_function) (args : list pyarg)
  (kwargs : dict string pyarg) (res : mapped) :
  snd (_map_over_subtree func args kwargs) = ret res ->
  exists first_tree, reaches_walk args kwargs first_tree.
Proof.
  unfold _map_over_subtree, reaches_walk.
  destruct (tree_inputs args ++ tree_inputs (dict_values kwargs))
    as [|first_tree others]; [discriminate|].
  destruct (check_others first_tree others) as [e|[]] eqn:Hc; [discriminate|].
  intros _. exists first_tree, others. now split.
Qed.

Lemma calls_reach (func : user_function) (args : list pyarg)
  (kwargs : dict string pyarg) :
  fst (_map_over_subtree func args kwargs) <> [] ->
  exists first_tree, reaches_walk args kwargs first_tree.
Proof.
  unfold _map_over_subtree, reaches_walk.
  destruct (tree_inputs args ++ tree_inputs (dict_values kwargs))
    as [|first_tree others]; [intros H; now elim H|].
  destruct (check_others first_tree others) as [e|[]] eqn:Hc;
    [intros H; now elim H|].
  intros _. exists first_tree, others. now split.
Qed.

(** X12: the function is never called before the arguments are validated:
    a call without a tree argument raises a [TypeError], a call with a
    co-tree that is not isomorphic to the first tree raises a
    [TreeIsomorphismError], and in both cases no call of the function is
    made. *)
Theorem no_call_before_validation (func : user_function)
  (args : list pyarg) (kwargs : dict string pyarg) :
  ~ (exists first_tree, reaches_walk args kwargs first_tree) ->
  fst (_map_over_subtree func args kwargs) = []
  /\ ((tree_inputs args ++ tree_inputs (dict_values kwargs) = []
       /\ snd (_map_over_subtree func args kwargs)
          = raise (TypeError "Must pass at least one tree object"))
      \/ (tree_inputs args ++ tree_inputs (dict_values kwargs) <> []
          /\ exists msg,
              snd (_map_over_subtree func args kwargs)
              = raise (TreeIsomorphismError msg))).
Proof.
  intros Hnot. unfold _map_over_subtree, reaches_walk in *.
  destruct (tree_inputs args ++ tree_inputs (dict_values kwargs))
    as [|first_tree others]; [split; [reflexivity | now left]|].
  destruct (check_others first_tree others) as [e|[]] eqn:Hc.
  - destruct (check_others_error _ _ _ Hc) as [msg ->].
    split; [reflexivity|]. right. split; [discriminate|]. now exists msg.
  - elim Hnot. exists first_tree, others. now split.
Qed.

(** X13: the isomorphism error that the mapper lets through is that of the
    first co-tree, in argument order, that is not isomorphic to the first
    tree: its message is the heading and the diff of the first tree and
    that co-tree, names not compared, subtrees only. *)
Theorem first_bad_cotree_reported (func : user_function)
  (args : list pyarg) (kwargs : dict string pyarg)
  (first_tree bad : DataTree) (pre post : list DataTree) :
  tree_inputs args ++ tree_inputs (dict_values kwargs)
  = first_tree :: pre ++ bad :: post ->
  Forall (fun t => check_isomorphic (ATree first_tree) (ATree t) false false
                   = ret tt) pre ->
  check_isomorphic (ATree first_tree) (ATree bad) false false <> ret tt ->
  _map_over_subtree func args kwargs
  = ([], raise (TreeIsomorphismError
                  ("DataTree objects are not isomorphic:" +++ newline
                     +++ diff_treestructure first_tree bad false))).
Proof.
  intros Hin Hpre Hbad. unfold _map_over_subtree. rewrite Hin.
  rewrite check_others_first_failure; [reflexivity | |].
  - rewrite Forall_forall in *. intros t Ht.
    now apply (check_isomorphic_ok first_tree t false false), Hpre.
  - intros Hsk. apply Hbad.
    now apply (check_isomorphic_ok first_tree bad false false).
Qed.

Lemma calls_made_paths (args : list pyarg) (kwargs : dict string pyarg)
  (l : list (DataTree * list pyarg)) :
  map fst
    (calls_made (map (fun step => (path (fst step), call_at args kwargs step))
                   l))
  = map path (filter (fun n => negb (is_empty n)) (map fst l)).
Proof.
  unfold calls_made. induction l as [|[n items] l IH]; [reflexivity|].
  cbn [map flat_map fst snd filter]. rewrite map_app, IH.
  destruct (is_empty n) eqn:He.
  - now rewrite (call_at_empty _ _ _ _ He).
  - now rewrite (call_at_payload _ _ _ _ He).
Qed.

(** X14: over a first tree whose paths are unique, in a call without a
    keyword of dask's own, the calls that are made are one for each node of
    the first tree that holds a payload, and no other; nothing is said on
    the order in which they are run. *)
Theorem one_call_per_payload (func : user_function) (args : list pyarg)
  (kwargs : dict string pyarg) (first_tree : DataTree) :
  reaches_walk args kwargs first_tree ->
  unique_path_texts first_tree ->
  plain_kwargs kwargs = true ->
  Permutation
    (map fst (fst (_map_over_subtree func args kwargs)))
    (map path (filter (fun n => negb (is_empty n)) (subtree first_tree))).
Proof.
  intros Hr Hu _. pose proof (unique_texts_paths _ Hu) as Hd.
  rewrite (map_over_subtree_reached func _ _ _ Hr). cbn [fst].
  rewrite (walk_distinct _ _ _ Hr Hd), calls_made_paths.
  now rewrite (steps_complete _ _ _ Hr).
Qed.

(** *** The arguments of a call *)

Lemma next_items_drawn (its : list iterable) :
  forall items its',
    next_items its = Some (items, its') ->
    Forall2 drawn its items /\ Forall2 within its' its.
Proof.
  induction its as [|it its IH]; intros items its'; cbn [next_items].
  - intros [= <- <-]. split; constructor.
  - destruct it as [[|n nodes]|v]; [discriminate| |].
    + destruct (next_items its) as [[xs r]|]; [|discriminate].
      intros [= <- <-]. destruct (IH xs r eq_refl) as [Hd Hw].
      split; constructor; try assumption.
      * exists n. split; [now left | reflexivity].
      * intros m Hm. now right.
    + destruct (next_items its) as [[xs r]|]; [|discriminate].
      intros [= <- <-]. destruct (IH xs r eq_refl) as [Hd Hw].
      split; constructor; try assumption; reflexivity.
Qed.

Lemma drawn_within (its' its : list iterable) :
  Forall2 within its' its ->
  forall items, Forall2 drawn its' items -> Forall2 drawn its items.
Proof.
  induction 1 as [|it' it its' its Hw _ IH]; intros items Hd;
    inversion Hd as [|? x ? xs Hx Hxs]; subst; constructor.
  - destruct it' as [l'|v']; destruct it as [l|v]; simpl in *;
      try contradiction.
    + destruct Hx as (n & Hn & ->). exists n. split; [now apply Hw|reflexivity].
    + now subst.
  - now apply IH.
Qed.

Lemma zip_nodes_drawn (first : list DataTree) :
  forall (its : list iterable) (step : DataTree * list pyarg),
    In step (zip_nodes first its) -> Forall2 drawn its (snd step).
Proof.
  induction first as [|n first IH]; intros its step; cbn [zip_nodes];
    [intros []|].
  destruct (next_items its) as [[items its']|] eqn:Hnext; [|intros []].
  destruct (next_items_drawn its items its' Hnext) as [Hd Hw].
  intros [<-|Hin]; [exact Hd|].
  apply (drawn_within its' its Hw). now apply IH.
Qed.

Lemma drawn_passed (l : list pyarg) :
  forall items,
    Forall2 drawn (map as_tree_length_iterable l) items ->
    Forall2 passed l (map as_dataset items).
Proof.
  induction l as [|a l IH]; intros items H; inversion H as [|? x ? xs Hx Hxs];
    subst; constructor.
  - destruct a as [t|v]; simpl in *.
    + destruct Hx as (n & Hn & ->). now exists n.
    + now subst.
  - now apply IH.
Qed.

Lemma Forall2_firstn_skipn {A B : Type} (R : A -> B -> Prop) (l1 l2 : list A) :
  forall l : list B,
    Forall2 R (l1 ++ l2) l ->
    Forall2 R l1 (firstn (length l1) l) /\ Forall2 R l2 (skipn (length l1) l).
Proof.
  induction l1 as [|x l1 IH]; intros l H; cbn [app length firstn skipn] in *.
  - split; [constructor | exact H].
  - inversion H as [|? y ? l' Hxy Hrest]; subst.
    destruct (IH l' Hrest) as [H1 H2]. cbn [firstn skipn].
    split; [now constructor | exact H2].
Qed.

Lemma calls_made_In (d : dict NodePath (option call)) (p : NodePath)
  (c : call) :
  In (p, c) (calls_made d) -> In (p, Some c) d.
Proof.
  unfold calls_made. intros Hin.
  apply in_flat_map in Hin as ([q [c'|]] & Hq & Hin); simpl in Hin;
    [|destruct Hin].
  destruct Hin as [[= <- <-]|[]]. exact Hq.
Qed.

Lemma combine_keys_passed (kwargs : dict string pyarg) :
  forall xs : list funarg,
    Forall2 passed (dict_values kwargs) xs ->
    map fst (combine (dict_keys kwargs) xs) = dict_keys kwargs
    /\ Forall2 (fun kv kx => fst kx = fst kv /\ passed (snd kv) (snd kx))
         kwargs (combine (dict_keys kwargs) xs).
Proof.
  unfold dict_keys, dict_values.
  induction kwargs as [|[k a] kwargs IH]; intros xs H;
    inversion H as [|? x ? xs' Hx Hxs]; subst; cbn [map combine fst snd].
  - split; constructor.
  - destruct (IH xs' Hxs) as [Hk Hf]. split; [now rewrite Hk|].
    constructor; [now split | exact Hf].
Qed.

(** X15: what a call of the function is given, when no keyword is one
    of dask's own.  Every call that is made
    has one positional argument for each positional argument of the mapped
    call, in the same order: the argument itself when it is no tree, the
    dataset of a node of the tree when it is one; the same holds of the
    keyword arguments, under their own keys. *)
Theorem call_arguments_passed (func : user_function) (args : list pyarg)
  (kwargs : dict string pyarg) (p : NodePath) (c : call) :
  plain_kwargs kwargs = true ->
  In (p, c) (fst (_map_over_subtree func args kwargs)) ->
  Forall2 passed args (call_args c)
  /\ (NoDup (dict_keys kwargs) ->
      Forall2 (fun kv kx => fst kx = fst kv /\ passed (snd kv) (snd kx))
        kwargs (call_kwargs c)).
Proof.
  intros _ Hin.
  assert (Hcalls : exists first_tree,
             In (p, c) (calls_made (walk first_tree args kwargs))).
  { unfold _map_over_subtree in Hin.
    destruct (tree_inputs args ++ tree_inputs (dict_values kwargs))
      as [|first_tree others]; [destruct Hin|].
    destruct (check_others first_tree others) as [e|[]]; [destruct Hin|].
    unfold compute in Hin. cbn [fst] in Hin. now exists first_tree. }
  destruct Hcalls as [first_tree Hc].
  apply calls_made_In, walk_entries in Hc as ([n items] & Hstep & _ & Hcall).
  pose proof (zip_nodes_drawn _ _ _ Hstep) as Hd. cbn [snd] in Hd.
  unfold steps in Hstep. apply drawn_passed in Hd.
  unfold call_at, node_results in Hcall. cbn [fst snd] in Hcall.
  destruct (negb (is_empty n)); [|discriminate]. injection Hcall as ->.
  cbn [call_args call_kwargs].
  rewrite <- firstn_map, <- skipn_map.
  destruct (Forall2_firstn_skipn passed args (dict_values kwargs) _ Hd)
    as [Ha Hk].
  split; [exact Ha|].
  intros Hnd. destruct (combine_keys_passed kwargs _ Hk) as [Hkeys Hf].
  rewrite dict_of_pairs_NoDup; [exact Hf | now rewrite Hkeys].
Qed.

(** *** The trees that are returned *)

Lemma dict_set_keys_same {K V : Type} `{KeyEq K} (k : K) (v v' : V)
  (d : dict K V) :
  forall d' : dict K V,
    dict_keys d = dict_keys d' ->
    dict_keys (dict_set k v d) = dict_keys (dict_set k v' d').
Proof.
  induction d as [|[k0 v0] d IH]; intros [|[k1 v1] d'] Hk;
    try discriminate; [reflexivity|].
  injection Hk as <- Hk. simpl.
  destruct (keqb k k0); simpl; [now rewrite Hk|].
  f_equal. now apply IH.
Qed.

Lemma assign_all_keys_same {K V : Type} `{KeyEq K} (pairs : list (K * V)) :
  forall (pairs' : list (K * V)) (d d' : dict K V),
    map fst pairs = map fst pairs' ->
    dict_keys d = dict_keys d' ->
    dict_keys (assign_all pairs d) = dict_keys (assign_all pairs' d').
Proof.
  induction pairs as [|[k v] pairs IH]; intros [|[k' v'] pairs'] d d' Hp Hd;
    try discriminate; [exact Hd|].
  injection Hp as <- Hp. unfold assign_all in *. cbn [fold_left fst snd].
  apply IH; [exact Hp | now apply dict_set_keys_same].
Qed.

Lemma result_trees_length (a : DataTree) (out : dict NodePath pyval)
  (indices : list nat) (trees : list built_tree) :
  result_trees a out indices = ret trees -> length trees = length indices.
Proof.
  intros H. apply result_trees_built in H. apply Forall2_length in H.
  now symmetry.
Qed.

(** X16: the trees that one call returns all have the same name and the
    same keys, in the same order: they differ in the data only. *)
Theorem output_trees_same_shape (func : user_function) (args : list pyarg)
  (kwargs : dict string pyarg) (res : mapped) (t1 t2 : built_tree) :
  snd (_map_over_subtree func args kwargs) = ret res ->
  In t1 (trees_of res) -> In t2 (trees_of res) ->
  bt_name t1 = bt_name t2
  /\ dict_keys (bt_contents t1) = dict_keys (bt_contents t2).
Proof.
  intros Hres H1 H2.
  destruct (map_ret_reaches _ _ _ _ Hres) as [first_tree Hr].
  destruct (output_tree_form _ _ _ _ _ _ Hr Hres H1) as [i1 ->].
  destruct (output_tree_form _ _ _ _ _ _ Hr Hres H2) as [i2 ->].
  split; [reflexivity|]. cbn [bt_contents].
  apply assign_all_keys_same; [|reflexivity].
  rewrite !map_map. reflexivity.
Qed.

(** X17: the number of trees returned is the arity that the validator
    found, and the result is a single tree, not a tuple, exactly when that
    arity is 1. *)
Theorem as_many_trees_as_arity (func : user_function) (args : list pyarg)
  (kwargs : dict string pyarg) (first_tree : DataTree) (res : mapped) :
  reaches_walk args kwargs first_tree ->
  snd (_map_over_subtree func args kwargs) = ret res ->
  exists k,
    _check_all_return_values (returned_objects func first_tree args kwargs)
    = ret (Some k)
    /\ length (trees_of res) = k
    /\ (k = 1 <-> exists t, res = OneTree t).
Proof.
  intros Hr. rewrite (map_over_subtree_reached func _ _ _ Hr). cbn [snd].
  destruct (_check_all_return_values _) as [e|[k|]]; try discriminate.
  cbn [bind].
  destruct (result_trees first_tree _ (seq 0 k)) as [e|trees] eqn:Ht;
    [discriminate|].
  apply result_trees_length in Ht. rewrite length_seq in Ht. cbn [bind].
  intros Hres. exists k. split; [reflexivity|].
  destruct trees as [|t0 [|t1 trees]]; injection Hres as <-;
    cbn [trees_of length] in *; (split; [exact Ht|]); subst k.
  - split; [discriminate | intros [t Ht]; discriminate].
  - split; [intros _; now exists t0 | reflexivity].
  - split; [discriminate | intros [t Ht]; discriminate].
Qed.

(** X18: the per-node result map by the texts of the paths, the keys of
    the source.  Over a first tree whose paths are unique the dictionary
    that the walk fills under the texts is the dictionary of the walk with
    every key as its text, no assignment overwriting another; the keys of
    the result map are then the texts of the paths of the nodes of the
    first tree, in traversal order. *)
Theorem result_map_keys (func : user_function) (args : list pyarg)
  (kwargs : dict string pyarg) (first_tree : DataTree) :
  reaches_walk args kwargs first_tree ->
  unique_path_texts first_tree ->
  walk_by_text first_tree args kwargs
  = keys_as_text (walk first_tree args kwargs)
  /\ dict_keys (keys_as_text (returned_objects func first_tree args kwargs))
     = map (fun n => path_str (path n)) (subtree first_tree)
  /\ length (walk_by_text first_tree args kwargs)
     = length (subtree first_tree).
Proof.
  intros Hr Hu. pose proof (unique_texts_paths _ Hu) as Hd.
  split; [now apply walk_by_text_walk|]. split.
  - rewrite returned_objects_resolved, (walk_distinct _ _ _ Hr Hd).
    unfold keys_as_text, dict_keys. rewrite !map_map. cbn [fst].
    now rewrite <- (map_map fst (fun n => path_str (path n))),
      (steps_complete _ _ _ Hr).
  - rewrite (walk_by_text_walk _ _ _ Hr Hu), (walk_distinct _ _ _ Hr Hd).
    unfold keys_as_text. rewrite !length_map.
    now rewrite <- (steps_complete _ _ _ Hr), length_map.
Qed.


Lemma zip_nodes_self (l : list DataTree) :
  zip_nodes l [ISubtree l] = map (fun n => (n, [ATree n])) l.
Proof. induction l as [|n l IH]; simpl; [reflexivity | now rewrite IH]. Qed.

Lemma single_tree_reaches_walk (a : DataTree) :
  reaches_walk [ATree a] [] a.
Proof. exists []. split; reflexivity. Qed.

(** X20: mapping a function of the payload over a single tree with
    well-formed names maps the payloads: the call returns one tree, with the name of the tree, that
    holds at every node with a payload the function of that payload and
    at every empty node nothing; with the identity it holds the payloads
    of the tree. *)
Theorem map_payload_func (g : Payload -> Payload) (a : DataTree) :
  named_well a = true ->
  (exists n, In n (subtree a) /\ is_empty n = false) ->
  snd (_map_over_subtree (payload_func g) [ATree a] [])
  = ret (OneTree
           (from_dict
              (map (fun n => (key_of a n, node_data g n)) (subtree a))
              (name a))).
Proof.
  intros Hwn Hne. pose proof (named_well_paths_unique _ Hwn) as Hu.
  pose proof (single_tree_reaches_walk a) as Hr.
  assert (Hsteps : steps a [ATree a] []
                   = map (fun n => (n, [ATree n])) (subtree a))
    by apply zip_nodes_self.
  assert (Hres : forall n,
             call_result (payload_func g) [ATree a] [] (n, [ATree n])
             = node_data g n).
  { intros n. unfold call_result, node_data, payload_func. cbn.
    now destruct (to_dataset n). }
  rewrite (uniform_results_trees (payload_func g) [ATree a] [] a 1 Hr Hu Hne).
  - cbn [seq map]. do 2 f_equal. unfold mapped_tree. f_equal.
    rewrite Hsteps, map_map. apply map_ext. intros n. cbn [fst]. f_equal.
    rewrite Hres. unfold node_data, is_empty, to_dataset.
    now destruct (t_ds (dt_node n)).
  - intros step Hstep He. rewrite Hsteps in Hstep.
    apply in_map_iff in Hstep as (n & <- & _). rewrite Hres.
    unfold node_data, is_empty, to_dataset in *. cbn [fst] in He.
    now destruct (t_ds (dt_node n)).
Qed.

(** *** Co-trees count by their data *)

Lemma next_items_same_data (its its' : list iterable) :
  Forall2 same_data its its' ->
  match next_items its, next_items its' with
  | Some (items, r), Some (items', r') =>
      map as_dataset items = map as_dataset items' /\ Forall2 same_data r r'
  | None, None => True
  | _, _ => False
  end.
Proof.
  induction 1 as [|it it' its its' Hit _ IH]; cbn [next_items].
  - split; constructor.
  - destruct it as [[|n l]|v]; destruct it' as [[|n' l']|v'];
      simpl in Hit; try contradiction; try discriminate; [exact I| |].
    + injection Hit as Hn Hl.
      destruct (next_items its) as [[items r]|];
        destruct (next_items its') as [[items' r']|]; try exact IH.
      destruct IH as [Hi Hr]. split.
      * cbn [map as_dataset]. now rewrite Hn, Hi.
      * constructor; [exact Hl | exact Hr].
    + subst v'.
      destruct (next_items its) as [[items r]|];
        destruct (next_items its') as [[items' r']|]; try exact IH.
      destruct IH as [Hi Hr]. split.
      * cbn [map as_dataset]. now rewrite Hi.
      * constructor; [reflexivity | exact Hr].
Qed.

Lemma zip_nodes_same_data (first : list DataTree) :
  forall its its' : list iterable,
    Forall2 same_data its its' ->
    map step_given (zip_nodes first its)
    = map step_given (zip_nodes first its').
Proof.
  induction first as [|n first IH]; intros its its' Hits; [reflexivity|].
  cbn [zip_nodes].
  pose proof (next_items_same_data its its' Hits) as Hnext.
  destruct (next_items its) as [[items r]|];
    destruct (next_items its') as [[items' r']|];
    try contradiction; [|reflexivity].
  destruct Hnext as [Hi Hr]. cbn [map]. f_equal.
  - unfold step_given. cbn [fst snd]. now rewrite Hi.
  - now apply IH.
Qed.

Lemma same_arg_iterables (l l' : list pyarg) :
  Forall2 same_arg l l' ->
  Forall2 same_data (map as_tree_length_iterable l)
    (map as_tree_length_iterable l').
Proof.
  induction 1 as [|a a' l l' Ha _ IH]; cbn [map]; constructor; [|exact IH].
  destruct a as [t|v]; destruct a' as [t'|v']; simpl in *;
    try contradiction; exact Ha.
Qed.

Lemma walk_given (first_tree : DataTree) (args : list pyarg)
  (kwargs : dict string pyarg) :
  walk first_tree args kwargs
  = dict_of_pairs
      (map (fun given =>
              (path (fst given),
               call_of_data (length args) (dict_keys kwargs)
                 (dt_node (fst given), snd given)))
         (map step_given (steps first_tree args kwargs))).
Proof.
  rewrite walk_assign, map_map. f_equal. apply map_ext. intros step.
  now rewrite call_at_data.
Qed.

(** X21: the mapper looks at a co-tree through its datasets only.  Two
    calls with the same first tree that both pass the validation, and
    whose arguments give the same data (equal values, trees with the same
    datasets in traversal order, whatever the names of their nodes), make
    the same calls of the function and return the same result. *)
Theorem cotrees_count_by_data (func : user_function)
  (args args' : list pyarg) (kwargs kwargs' : dict string pyarg)
  (first_tree : DataTree) :
  reaches_walk args kwargs first_tree ->
  reaches_walk args' kwargs' first_tree ->
  Forall2 same_arg args args' ->
  dict_keys kwargs = dict_keys kwargs' ->
  Forall2 same_arg (dict_values kwargs) (dict_values kwargs') ->
  _map_over_subtree func args kwargs = _map_over_subtree func args' kwargs'.
Proof.
  intros Hr Hr' Hargs Hkeys Hvals.
  assert (Hwalk : walk first_tree args kwargs = walk first_tree args' kwargs').
  { rewrite !walk_given. unfold steps.
    rewrite (zip_nodes_same_data (subtree first_tree)
               (map as_tree_length_iterable (args ++ dict_values kwargs))
               (map as_tree_length_iterable (args' ++ dict_values kwargs'))).
    - now rewrite Hkeys, (Forall2_length Hargs).
    - apply same_arg_iterables. now apply Forall2_app. }
  rewrite (map_over_subtree_reached func _ _ _ Hr),
    (map_over_subtree_reached func _ _ _ Hr').
  unfold returned_objects. now rewrite Hwalk.
Qed.

End Model.

(** ** The properties at sample inputs *)

Lemma diff_treestructure_isomorphic_witness :
  size (dt_node (as_root (sample_tree 0 1)))
  <> size (dt_node (sample_subtree 0 1))
  /\ diff_treestructure (as_root (sample_tree 0 1)) (sample_subtree 0 1) true
     <> EmptyString.
Proof.
  split; [simpl; lia|].
  apply (diff_treestructure_isomorphic
           (as_root (sample_tree 0 1)) (sample_subtree 0 1) true).
  simpl; lia.
Defined.

(** The claim C4 as stated fails when names are compared: the trees differ
    in node count and the diff reports a name mismatch, not a child-count
    mismatch. *)
Lemma diff_treestructure_reports_name_mismatch :
  size (dt_node (as_root (two_nodes 0)))
  <> size (dt_node (as_root (one_node 1)))
  /\ diff_treestructure (as_root (two_nodes 0)) (as_root (one_node 1)) true
     = name_diff (as_root (two_nodes 0)) (as_root (one_node 1))
  /\ forall x y : @DataTree nat,
       diff_treestructure (as_root (two_nodes 0)) (as_root (one_node 1)) true
       <> children_diff x y.
Proof.
  split; [simpl; lia|]. split; [reflexivity|].
  intros x y. vm_compute. discriminate.
Qed.

Lemma check_isomorphic_transitive_witness :
  check_isomorphic (ATree (as_root (sample_tree 0 1)))
    (ATree (as_root (sample_cotree 2))) false true = ret tt
  /\ check_isomorphic (ATree (as_root (sample_cotree 2)))
       (ATree (as_root (sample_third 3))) false true = ret tt
  /\ check_isomorphic (ATree (as_root (sample_tree 0 1)))
       (ATree (as_root (sample_third 3))) false true = ret tt.
Proof.
  split; [reflexivity|]. split; [reflexivity|].
  apply (check_isomorphic_transitive _ (as_root (sample_cotree 2)));
    reflexivity.
Defined.

Ltac in_list := simpl; repeat (first [left; reflexivity | right]).

Ltac reached others :=
  exists others; split; vm_compute; reflexivity.

Lemma sample_reaches_walk :
  reaches_walk (sample_args 0 1 2) [] (as_root (sample_tree 0 1)).
Proof. reached [as_root (sample_cotree 2)]. Defined.


Lemma sample_unique_texts : unique_path_texts (as_root (sample_tree 0 1)).
Proof. apply named_well_unique_texts. reflexivity. Defined.

Lemma sample_alone_reaches_walk :
  reaches_walk [ATree (as_root (sample_tree 0 1))] []
    (as_root (sample_tree 0 1)).
Proof. reached (@nil (@DataTree nat)). Defined.

(** C1: the first result is neither examined nor compared.  A pair at
    one node followed by a single payload at another passes the validator
    with arity 1, as does a first result that is no payload at all, and the
    mapped function returns one tree that holds the first item of the
    pair. *)
Theorem first_result_not_checked :
  (forall (p1 p2 : NodePath) (x y z : nat),
      _check_all_return_values
        [(p1, PTuple [PData x; PData y]); (p2, PData z)]
      = ret (Some 1))
  /\ (forall (p1 p2 : NodePath) (cls : string) (z : nat),
         _check_all_return_values [(p1, POther cls); (p2, PData z)]
         = ret (Some 1))
  /\ snd (_map_over_subtree (mixed_func (Nat.eqb 0))
            [ATree (as_root (sample_tree 0 1))] [])
     = ret (OneTree
              (from_dict
                 [("/", PData 0); ("a", PData 1); ("a/c", PNone);
                  ("b", PNone)]
                 "root")).
Proof. repeat split; intros; reflexivity. Qed.





Lemma output_paths_relative_witness :
  reaches_walk [ATree (sample_subtree 0 1)] [] (sample_subtree 0 1)
  /\ snd (_map_over_subtree identity_func [ATree (sample_subtree 0 1)] [])
     = ret (OneTree (from_dict [("/", PData 1); ("c", PNone)] "a"))
  /\ path (sample_subtree 0 1) = ["a"]
  /\ named_well (sample_subtree 0 1) = true
  /\ dict_keys
       (bt_contents (from_dict [("/", @PData nat 1); ("c", PNone)] "a"))
     = map normalize_relative
         (relative_paths (dt_node (sample_subtree 0 1))).
Proof.
  assert (Hr : reaches_walk [ATree (sample_subtree 0 1)] []
                 (sample_subtree 0 1))
    by reached (@nil (@DataTree nat)).
  split; [exact Hr|]. split; [reflexivity|]. split; [reflexivity|].
  split; [reflexivity|].
  apply (output_paths_relative identity_func [ATree (sample_subtree 0 1)] []
           (sample_subtree 0 1)
           (OneTree (from_dict [("/", PData 1); ("c", PNone)] "a"))
           (from_dict [("/", PData 1); ("c", PNone)] "a") Hr).
  - reflexivity.
  - in_list.
  - reflexivity.
Defined.

Lemma all_none_result_raises_witness :
  reaches_walk [ATree (as_root (sample_tree 0 1))] []
    (as_root (sample_tree 0 1))
  /\ snd (_map_over_subtree none_func [ATree (as_root (sample_tree 0 1))] [])
     = raise (TypeError all_none_message).
Proof.
  split; [exact sample_alone_reaches_walk|].
  apply (all_none_result_raises none_func
           [ATree (as_root (sample_tree 0 1))] []
           (as_root (sample_tree 0 1)) sample_alone_reaches_walk).
  intros p v Hin. vm_compute in Hin.
  repeat (destruct Hin as [Hin|Hin]; [now injection Hin as _ <-|]).
  destruct Hin.
Defined.


Lemma result_map_covers_traversal_witness :
  reaches_walk (sample_args 0 1 2) [] (as_root (sample_tree 0 1))
  /\ exists c,
       dict_get (path (sample_node_b 0 1))
         (walk (as_root (sample_tree 0 1)) (sample_args 0 1 2) [])
       = Some c.
Proof.
  split; [exact sample_reaches_walk|].
  apply (result_map_covers_traversal identity_func (sample_args 0 1 2) []
           (as_root (sample_tree 0 1)) sample_reaches_walk
           (sample_node_b 0 1)).
  in_list.
Defined.

(** ** The further properties at sample inputs *)

Lemma check_isomorphic_symmetric_witness :
  check_isomorphic (ATree (as_root (sample_tree 0 1)))
    (ATree (as_root (sample_cotree 2))) false false = ret tt
  /\ check_isomorphic (ATree (as_root (sample_cotree 2)))
       (ATree (as_root (sample_tree 0 1))) false false = ret tt.
Proof.
  split; [reflexivity|].
  apply (check_isomorphic_symmetric (as_root (sample_tree 0 1))).
  reflexivity.
Defined.

Lemma names_required_is_stricter_witness :
  check_isomorphic (ATree (as_root (sample_tree 0 1)))
    (ATree (as_root (sample_tree 2 3))) true true = ret tt
  /\ check_isomorphic (ATree (as_root (sample_tree 0 1)))
       (ATree (as_root (sample_tree 2 3))) false true = ret tt.
Proof.
  split; [reflexivity|].
  apply (names_required_is_stricter (as_root (sample_tree 0 1))).
  reflexivity.
Defined.

Lemma diff_reports_first_mismatch_witness :
  forallb one_line_node (LevelOrderIter (as_root (sample_tree 0 1))) = true
  /\ forallb one_line_node (LevelOrderIter (sample_subtree 0 1)) = true
  /\ diff_treestructure (as_root (sample_tree 0 1)) (sample_subtree 0 1) true
     <> EmptyString
  /\ exists pre x y post,
       combine (LevelOrderIter (as_root (sample_tree 0 1)))
         (LevelOrderIter (sample_subtree 0 1))
       = pre ++ (x, y) :: post
       /\ Forall (fun ab => nodes_agree true (fst ab) (snd ab)) pre
       /\ ~ nodes_agree true x y
       /\ diff_treestructure (as_root (sample_tree 0 1))
            (sample_subtree 0 1) true
          = if true && negb (String.eqb (name x) (name y))
            then name_diff x y else children_diff x y.
Proof.
  split; [reflexivity|]. split; [reflexivity|].
  split; [vm_compute; discriminate|].
  apply (diff_reports_first_mismatch (as_root (sample_tree 0 1))
           (sample_subtree 0 1) true); try reflexivity.
  vm_compute; discriminate.
Defined.

Lemma isomorphic_subtrees_aligned_witness :
  check_isomorphic (ATree (as_root (sample_tree 0 1)))
    (ATree (as_root (sample_cotree 2))) false false = ret tt
  /\ length (subtree (as_root (sample_tree 0 1)))
     = length (subtree (as_root (sample_cotree 2))).
Proof.
  split; [reflexivity|].
  apply (isomorphic_subtrees_aligned (as_root (sample_tree 0 1))
           (as_root (sample_cotree 2)) false).
  reflexivity.
Defined.

Lemma check_single_first_bad_item_witness :
  forallb is_data [@PData nat 0] = true
  /\ is_data (@PNone nat) = false
  /\ _check_single_set_return_values ["a"]
       (PTuple ([PData 0] ++ PNone :: [PData 1]))
     = raise (TypeError (item_type_message ["a"] (@PNone nat))).
Proof.
  split; [reflexivity|]. split; [reflexivity|].
  apply (check_single_first_bad_item ["a"] [PData 0] PNone [PData 1]);
    reflexivity.
Defined.

Lemma check_all_returns_number_witness :
  _check_all_return_values [([], PData 0); (["a"], PData 1)] = ret (Some 1)
  /\ exists k, Some 1 = Some k.
Proof.
  split; [reflexivity|].
  apply (check_all_returns_number [([], PData 0); (["a"], PData 1)]).
  reflexivity.
Defined.

Lemma check_all_first_inconsistency_witness :
  _check_all_return_values
    [([], PData 0); (["a"], PData 1); (["b"], PTuple [PData 2; PData 3])]
  = raise (TypeError (inconsistent_message ["b"] 2 ["a"] 1)).
Proof.
  apply (check_all_first_inconsistency _ ([], PData 0) [] []
           ["a"] ["b"] (PData 1) (PTuple [PData 2; PData 3]) 1 2).
  - reflexivity.
  - constructor.
  - reflexivity.
  - reflexivity.
  - discriminate.
Defined.

Lemma no_call_before_validation_witness :
  ~ (exists first_tree, reaches_walk [AOther (@PNone nat)] [] first_tree)
  /\ fst (_map_over_subtree identity_func [AOther (@PNone nat)] []) = [].
Proof.
  assert (H : ~ (exists first_tree,
                    reaches_walk [AOther (@PNone nat)] [] first_tree)).
  { intros (first_tree & others & Hin & _). discriminate Hin. }
  split; [exact H|].
  apply (no_call_before_validation identity_func [AOther PNone] [] H).
Defined.

Lemma first_bad_cotree_reported_witness :
  check_isomorphic (ATree (as_root (sample_tree 0 1)))
    (ATree (as_root (one_node 5))) false false <> ret tt
  /\ _map_over_subtree identity_func
       [ATree (as_root (sample_tree 0 1)); ATree (as_root (one_node 5))] []
     = ([], raise (TreeIsomorphismError
                     (("DataTree objects are not isomorphic:"
                         ++ newline)%string
                        ++ diff_treestructure (as_root (sample_tree 0 1))
                             (as_root (one_node 5)) false)%string)).
Proof.
  assert (H : check_isomorphic (ATree (as_root (sample_tree 0 1)))
                (ATree (as_root (one_node 5))) false false <> ret tt)
    by (vm_compute; discriminate).
  split; [exact H|].
  apply (first_bad_cotree_reported identity_func
           [ATree (as_root (sample_tree 0 1)); ATree (as_root (one_node 5))]
           [] (as_root (sample_tree 0 1)) (as_root (one_node 5)) [] []).
  - reflexivity.
  - constructor.
  - exact H.
Defined.

Lemma one_call_per_payload_witness :
  reaches_walk [ATree (as_root (sample_tree 0 1))] []
    (as_root (sample_tree 0 1))
  /\ unique_path_texts (as_root (sample_tree 0 1))
  /\ @plain_kwargs nat [] = true
  /\ Permutation
       (map fst (fst (_map_over_subtree identity_func
                        [ATree (as_root (sample_tree 0 1))] [])))
       [[]; ["a"]].
Proof.
  split; [exact sample_alone_reaches_walk|].
  split; [exact sample_unique_texts|]. split; [reflexivity|].
  apply (one_call_per_payload identity_func
           [ATree (as_root (sample_tree 0 1))] []
           (as_root (sample_tree 0 1))
           sample_alone_reaches_walk sample_unique_texts eq_refl).
Defined.

Lemma call_arguments_passed_witness :
  @plain_kwargs nat [] = true
  /\ In ([], mkCall [FDataset (Some 0); FValue (POther "int")] [])
       (fst (_map_over_subtree identity_func
               [ATree (as_root (sample_tree 0 1)); AOther (POther "int")] []))
  /\ Forall2 passed
       [ATree (as_root (sample_tree 0 1)); AOther (POther "int")]
       [FDataset (Some 0); FValue (POther "int")].
Proof.
  assert (H : In ([], mkCall [FDataset (Some 0); FValue (POther "int")] [])
                (fst (_map_over_subtree identity_func
                        [ATree (as_root (sample_tree 0 1));
                         AOther (POther "int")] [])))
    by in_list.
  split; [reflexivity|]. split; [exact H|].
  apply (call_arguments_passed identity_func
           [ATree (as_root (sample_tree 0 1)); AOther (POther "int")] []
           [] (mkCall [FDataset (Some 0); FValue (POther "int")] [])
           eq_refl H).
Defined.

Lemma output_trees_same_shape_witness :
  snd (_map_over_subtree pair_func [ATree (as_root (sample_tree 0 1))] [])
  = ret (TreeTuple
           (map (mapped_tree pair_func
                   [ATree (as_root (sample_tree 0 1))] []
                   (as_root (sample_tree 0 1)))
              (seq 0 2)))
  /\ dict_keys
       (bt_contents
          (mapped_tree pair_func [ATree (as_root (sample_tree 0 1))] []
             (as_root (sample_tree 0 1)) 0))
     = dict_keys
         (bt_contents
            (mapped_tree pair_func [ATree (as_root (sample_tree 0 1))] []
               (as_root (sample_tree 0 1)) 1)).
Proof.
  split; [reflexivity|].
  apply (output_trees_same_shape pair_func
           [ATree (as_root (sample_tree 0 1))] []
           (TreeTuple
              (map (mapped_tree pair_func
                      [ATree (as_root (sample_tree 0 1))] []
                      (as_root (sample_tree 0 1)))
                 (seq 0 2)))).
  - reflexivity.
  - in_list.
  - in_list.
Defined.

Lemma as_many_trees_as_arity_witness :
  reaches_walk [ATree (as_root (sample_tree 0 1))] []
    (as_root (sample_tree 0 1))
  /\ exists k,
       _check_all_return_values
         (returned_objects pair_func (as_root (sample_tree 0 1))
            [ATree (as_root (sample_tree 0 1))] [])
       = ret (Some k)
       /\ length
            (trees_of
               (TreeTuple
                  (map (mapped_tree pair_func
                          [ATree (as_root (sample_tree 0 1))] []
                          (as_root (sample_tree 0 1)))
                     (seq 0 2))))
          = k
       /\ (k = 1 <->
           exists t,
             TreeTuple
               (map (mapped_tree pair_func
                       [ATree (as_root (sample_tree 0 1))] []
                       (as_root (sample_tree 0 1)))
                  (seq 0 2))
             = OneTree t).
Proof.
  split; [exact sample_alone_reaches_walk|].
  apply (as_many_trees_as_arity pair_func
           [ATree (as_root (sample_tree 0 1))] []
           (as_root (sample_tree 0 1)) _ sample_alone_reaches_walk).
  reflexivity.
Defined.

Lemma result_map_keys_witness :
  reaches_walk (sample_args 0 1 2) [] (as_root (sample_tree 0 1))
  /\ unique_path_texts (as_root (sample_tree 0 1))
  /\ dict_keys
       (keys_as_text
          (returned_objects identity_func (as_root (sample_tree 0 1))
             (sample_args 0 1 2) []))
     = ["/"; "/a"; "/a/c"; "/b"].
Proof.
  split; [exact sample_reaches_walk|]. split; [exact sample_unique_texts|].
  apply (result_map_keys identity_func (sample_args 0 1 2) []
           (as_root (sample_tree 0 1)) sample_reaches_walk
           sample_unique_texts).
Defined.


Lemma map_payload_func_witness :
  named_well (as_root (sample_tree 0 1)) = true
  /\ snd (_map_over_subtree (payload_func S)
            [ATree (as_root (sample_tree 0 1))] [])
     = ret (OneTree
              (from_dict
                 [("/", PData 1); ("a", PData 2); ("a/c", PNone);
                  ("b", PNone)]
                 "root")).
Proof.
  split; [reflexivity|].
  apply (map_payload_func S (as_root (sample_tree 0 1)) eq_refl).
  exists (as_root (sample_tree 0 1)). split; [in_list | reflexivity].
Defined.

Lemma cotrees_count_by_data_witness :
  reaches_walk (sample_args 0 1 2) [] (as_root (sample_tree 0 1))
  /\ reaches_walk
       [ATree (as_root (sample_tree 0 1));
        ATree (as_root (sample_cotree_renamed 2))] []
       (as_root (sample_tree 0 1))
  /\ _map_over_subtree identity_func (sample_args 0 1 2) []
     = _map_over_subtree identity_func
         [ATree (as_root (sample_tree 0 1));
          ATree (as_root (sample_cotree_renamed 2))] [].
Proof.
  assert (Hr : reaches_walk
                 [ATree (as_root (sample_tree 0 1));
                  ATree (as_root (sample_cotree_renamed 2))] []
                 (as_root (sample_tree 0 1)))
    by reached [as_root (sample_cotree_renamed 2)].
  split; [exact sample_reaches_walk|]. split; [exact Hr|].
  apply (cotrees_count_by_data identity_func (sample_args 0 1 2) _ [] []
           (as_root (sample_tree 0 1)) sample_reaches_walk Hr).
  - repeat constructor.
  - reflexivity.
  - constructor.
Defined.
